(** * Address book assistant (hw01.py): a shallow embedding and its properties

    The program is a small command-line contact manager.  Its classes
    [Name], [Phone], [Record] and [AddressBook] and its command handlers are
    translated here function by function.

    Modelling decisions, all of them visible in the definitions below:

    - A Python [str] is a [string]; every [ascii] stands for the Unicode
      code point of the same number, so the strings of the model are the
      Python strings over U+0000..U+00FF.  On that range [str.lower],
      [str.isalpha], [str.isdigit] and the white space of [str.split] are
      the ones of the Unicode character database, written out below; the
      range is closed under [str.lower].
    - An exception is a value of [exn]; code that can raise returns an
      [outcome].  A method that mutates its object is a function from the
      object to an outcome and the object as it is left, also when the
      method raises: a mutation done before the exception is kept.
    - A [Phone] or [Name] object is represented by its [value].  Every
      [Phone] of a record is created by [add_phone], so no object occurs
      twice in [phones] and an in-place update of one element is exact.
    - The [dict] behind [AddressBook] is an association list in insertion
      order.  A record found in the book is referred to by its key: a
      mutation of that record is written back under the key.
    - Standard input is the list of the lines still to be read, standard
      output the list of what was written so far. *)

From Stdlib Require Import String Ascii List Bool Arith NArith Lia.
From Stdlib Require Import DecimalString DecimalNat.
Import ListNotations.
Local Open Scope list_scope.
Local Open Scope string_scope.

(** ** Python strings *)

Definition code (c : ascii) : N := N_of_ascii c.

Definition between (lo hi : N) (c : ascii) : bool :=
  ((lo <=? code c) && (code c <=? hi))%N.

(** [c.isdigit()]: the decimal digits and the superscript digits
    U+00B2, U+00B3 and U+00B9. *)
Definition char_isdigit (c : ascii) : bool :=
  between 0x30 0x39 c || between 0xB2 0xB3 c || between 0xB9 0xB9 c.

(** The ASCII decimal digits alone. *)
Definition char_is_ascii_digit (c : ascii) : bool := between 0x30 0x39 c.

Definition char_is_ascii (c : ascii) : bool := (code c <? 0x80)%N.

(** [c.isalpha()]: the letters (general categories Lu, Ll, Lt, Lm, Lo). *)
Definition char_isalpha (c : ascii) : bool :=
  between 0x41 0x5A c || between 0x61 0x7A c
  || between 0xAA 0xAA c || between 0xB5 0xB5 c || between 0xBA 0xBA c
  || between 0xC0 0xD6 c || between 0xD8 0xF6 c || between 0xF8 0xFF c.

(** The characters [str.split()] and [str.strip()] treat as white space. *)
Definition char_isspace (c : ascii) : bool :=
  between 0x09 0x0D c || between 0x1C 0x20 c
  || between 0x85 0x85 c || between 0xA0 0xA0 c.

(** [c.lower()]: A-Z and the capital letters U+00C0..U+00DE (the
    multiplication sign U+00D7 is not a letter) move up by 32. *)
Definition char_lower (c : ascii) : ascii :=
  if between 0x41 0x5A c || between 0xC0 0xD6 c || between 0xD8 0xDE c
  then ascii_of_N (code c + 32)
  else c.

Fixpoint str_map (f : ascii -> ascii) (s : string) : string :=
  match s with
  | EmptyString => EmptyString
  | String c s' => String (f c) (str_map f s')
  end.

Fixpoint str_all (p : ascii -> bool) (s : string) : bool :=
  match s with
  | EmptyString => true
  | String c s' => p c && str_all p s'
  end.

Definition str_nonempty (s : string) : bool :=
  match s with EmptyString => false | String _ _ => true end.

(** [s.lower()] *)
Definition str_lower (s : string) : string := str_map char_lower s.

(** [s.isalpha()] and [s.isdigit()]: false on the empty string. *)
Definition str_isalpha (s : string) : bool :=
  str_nonempty s && str_all char_isalpha s.

Definition str_isdigit (s : string) : bool :=
  str_nonempty s && str_all char_isdigit s.

(** [s.split()]: the maximal runs of characters that are not white space.
    [cur] is the run being read. *)
Fixpoint split_from (cur s : string) : list string :=
  match s with
  | EmptyString => if str_nonempty cur then [cur] else []
  | String c s' =>
      if char_isspace c
      then (if str_nonempty cur then cur :: split_from "" s'
            else split_from "" s')
      else split_from (cur ++ String c "") s'
  end.

Definition str_split (s : string) : list string := split_from "" s.

Fixpoint str_lstrip (s : string) : string :=
  match s with
  | EmptyString => EmptyString
  | String c s' => if char_isspace c then str_lstrip s' else s
  end.

Fixpoint str_rstrip (s : string) : string :=
  match s with
  | EmptyString => EmptyString
  | String c s' =>
      match str_rstrip s' with
      | EmptyString => if char_isspace c then EmptyString else String c ""
      | r => String c r
      end
  end.

(** [s.strip()] *)
Definition str_strip (s : string) : string := str_rstrip (str_lstrip s).

(** [sep.join(l)] *)
Definition str_join (sep : string) (l : list string) : string :=
  String.concat sep l.

(** [str(i)] of a natural number. *)
Definition str_of_nat (i : nat) : string :=
  NilEmpty.string_of_uint (Nat.to_uint i).

Definition newline : string := String (ascii_of_N 10) "".

(** ** Exceptions and the monad of mutating code *)

Inductive exn : Type :=
| ValueError (msg : string)
| KeyError (key : string)
| IndexError
| AttributeError
| EOFError.

Inductive outcome (A : Type) : Type :=
| Return (a : A)
| Raise (e : exn).
Arguments Return {A} a.
Arguments Raise {A} e.

(** A computation over a mutable object (or the whole world) of type [S]. *)
Definition M (S A : Type) : Type := S -> outcome A * S.

Definition ret {S A} (a : A) : M S A := fun s => (Return a, s).

Definition raise {S A} (e : exn) : M S A := fun s => (Raise e, s).

Definition bind {S A B} (c : M S A) (k : A -> M S B) : M S B :=
  fun s =>
    match c s with
    | (Return a, s') => k a s'
    | (Raise e, s') => (Raise e, s')
    end.

Definition lift {S A} (o : outcome A) : M S A := fun s => (o, s).

Definition get {S} : M S S := fun s => (Return s, s).

Definition modify {S} (f : S -> S) : M S unit := fun s => (Return tt, f s).

(** [try: body except KeyError: handler] *)
Definition except_KeyError {S A} (body : M S A) (handler : M S A) : M S A :=
  fun s =>
    match body s with
    | (Raise (KeyError _), s') => handler s'
    | r => r
    end.

Declare Scope py_scope.
Delimit Scope py_scope with py.
Notation "x <- c ;; k" := (bind c (fun x => k))
  (at level 61, c at next level, right associativity) : py_scope.
Notation "' pat <- c ;; k" :=
  (bind c (fun x => match x with pat => k end))
  (at level 61, pat pattern, c at next level, right associativity) : py_scope.
Notation "c ;; k" := (bind c (fun _ => k))
  (at level 61, right associativity) : py_scope.
Local Open Scope py_scope.

(** [for x in l: body x], stopping at the first exception. *)
Fixpoint for_each {S A} (l : list A) (body : A -> M S unit) : M S unit :=
  match l with
  | [] => ret tt
  | x :: l' => body x ;; for_each l' body
  end.

(** ** Fields: [Name] and [Phone] *)

Record Name : Type := mkName { name_value : string }.

Record Phone : Type := mkPhone { phone_value : string }.

Definition Name_error : string :=
  "Name must contain only alphabetic characters.".

Definition Phone_error : string := "Phone number must contain 10 digits.".

Definition Name_init (value : string) : outcome Name :=
  let value := str_lower value in
  if negb (str_isalpha value)
  then Raise (ValueError Name_error)
  else Return (mkName value).

Definition Phone_init (value : string) : outcome Phone :=
  if negb (str_isdigit value) || negb (Nat.eqb (String.length value) 10)
  then Raise (ValueError Phone_error)
  else Return (mkPhone value).

(** ** Record *)

Record RecordObj : Type := mkRecord { name : Name; phones : list Phone }.

Definition set_phones (l : list Phone) (r : RecordObj) : RecordObj :=
  {| name := name r; phones := l |}.

Definition Record_init (nm : string) : outcome RecordObj :=
  match Name_init nm with
  | Return n => Return {| name := n; phones := [] |}
  | Raise e => Raise e
  end.

Definition Record_add_phone (phone : string) : M RecordObj unit :=
  p <- lift (Phone_init phone) ;;
  modify (fun r => set_phones (phones r ++ [p])%list r).

Definition Phone_eqb (p q : Phone) : bool :=
  String.eqb (phone_value p) (phone_value q).

(** [l.remove(p)]: drops the first element equal to [p]. *)
Fixpoint list_remove (p : Phone) (l : list Phone) : list Phone :=
  match l with
  | [] => []
  | q :: l' => if Phone_eqb q p then l' else q :: list_remove p l'
  end.

Definition Phone_not_found : string := "Phone number not found".

Definition Record_remove_phone (phone : string) : M RecordObj unit :=
  fun r =>
    match find (fun p => String.eqb (phone_value p) phone) (phones r) with
    | Some p => (Return tt, set_phones (list_remove p (phones r)) r)
    | None => (Raise (ValueError Phone_not_found), r)
    end.

(** The loop of [edit_phone]: the first phone whose value is [old_phone]
    gets the value [new_phone], in place; [None] when the loop ends
    without a match. *)
Fixpoint edit_first (old_phone new_phone : string) (l : list Phone)
  : option (list Phone) :=
  match l with
  | [] => None
  | p :: l' =>
      if String.eqb (phone_value p) old_phone
      then Some (mkPhone new_phone :: l')
      else option_map (cons p) (edit_first old_phone new_phone l')
  end.

Definition Record_edit_phone (old_phone new_phone : string)
  : M RecordObj unit :=
  fun r =>
    match edit_first old_phone new_phone (phones r) with
    | Some l => (Return tt, set_phones l r)
    | None => (Raise (ValueError Phone_not_found), r)
    end.

(** [find_phone] without an argument ([phone is None]): all the values. *)
Definition Record_find_phone_all (r : RecordObj) : list string :=
  map phone_value (phones r).

(** [find_phone] with an argument. *)
Definition Record_find_phone (phone : string) (r : RecordObj)
  : outcome string :=
  match find (fun p => String.eqb (phone_value p) phone) (phones r) with
  | Some p => Return (phone_value p)
  | None => Raise (ValueError Phone_not_found)
  end.

Definition Record_str (r : RecordObj) : string :=
  let num_phones := List.length (phones r) in
  let phone_word := if Nat.eqb num_phones 1 then "phone" else "phones" in
  "Contact name: " ++ name_value (name r) ++ ", " ++ phone_word ++ ": "
  ++ str_join ", " (map phone_value (phones r)).

(** ** AddressBook *)

(** A [dict] with string keys, in insertion order. *)
Definition dict (V : Type) : Type := list (string * V).

Fixpoint dict_get {V} (k : string) (d : dict V) : option V :=
  match d with
  | [] => None
  | (k', v) :: d' => if String.eqb k' k then Some v else dict_get k d'
  end.

(** [d[k] = v]: an existing key keeps its place, a new one goes last. *)
Fixpoint dict_set {V} (k : string) (v : V) (d : dict V) : dict V :=
  match d with
  | [] => [(k, v)]
  | (k', v') :: d' =>
      if String.eqb k' k then (k, v) :: d' else (k', v') :: dict_set k v d'
  end.

Fixpoint dict_remove {V} (k : string) (d : dict V) : dict V :=
  match d with
  | [] => []
  | (k', v) :: d' =>
      if String.eqb k' k then dict_remove k d' else (k', v) :: dict_remove k d'
  end.

(** [d[k]], raising [KeyError] on a missing key. *)
Definition dict_item {V} (k : string) (d : dict V) : outcome V :=
  match dict_get k d with
  | Some v => Return v
  | None => Raise (KeyError k)
  end.

(** The keys of a dictionary are pairwise distinct. *)
Definition dict_ok {V} (d : dict V) : Prop := NoDup (map fst d).

Definition AddressBook : Type := dict RecordObj.

Definition AddressBook_add_record (record : RecordObj) : M AddressBook unit :=
  modify (dict_set (name_value (name record)) record).

Definition AddressBook_find (nm : string) (book : AddressBook)
  : option RecordObj :=
  dict_get nm book.

Definition AddressBook_delete (nm : string) : M AddressBook unit :=
  fun book =>
    match dict_get nm book with
    | Some _ => (Return tt, dict_remove nm book)
    | None => (Raise (KeyError nm), book)
    end.

(** ** The world of the command handlers *)

Inductive output : Type :=
| Printed (s : string)
| Prompt (s : string).

Record World : Type := mkWorld {
  address_book : AddressBook;
  stdin : list string;
  stdout : list output
}.

Definition set_book (b : AddressBook) (w : World) : World :=
  {| address_book := b; stdin := stdin w; stdout := stdout w |}.

Definition write (o : output) (w : World) : World :=
  {| address_book := address_book w; stdin := stdin w;
     stdout := (stdout w ++ [o])%list |}.

Definition print (s : string) : M World unit := modify (write (Printed s)).

(** [input(prompt)]: writes the prompt and reads one line; [EOFError] at
    the end of the input. *)
Definition input (prompt : string) : M World string :=
  fun w =>
    let w := write (Prompt prompt) w in
    match stdin w with
    | [] => (Raise EOFError, w)
    | line :: rest =>
        (Return line,
         {| address_book := address_book w; stdin := rest;
            stdout := stdout w |})
    end.

(** A method of the address book, run on the book of the world. *)
Definition on_book {A} (c : M AddressBook A) : M World A :=
  fun w => let (o, b) := c (address_book w) in (o, set_book b w).

(** A method called on [address_book.find(key)]: on [None] the attribute
    access raises [AttributeError]; on a record the method runs on the
    object held by the book. *)
Definition on_record {A} (key : string) (c : M RecordObj A) : M World A :=
  fun w =>
    match AddressBook_find key (address_book w) with
    | Some record =>
        let (o, record') := c record in
        (o, set_book (dict_set key record' (address_book w)) w)
    | None => (Raise AttributeError, w)
    end.

(** A method sequence run on a local object; the object is returned when
    no exception was raised. *)
Definition on_local {W} (c : M RecordObj unit) (record : RecordObj)
  : M W RecordObj :=
  fun w =>
    match c record with
    | (Return _, record') => (Return record', w)
    | (Raise e, _) => (Raise e, w)
    end.

(** ** The decorator *)

(** [inj] is the identity for the handlers, which return a string; for
    [main], which returns [None], it is [Some]. *)
Definition input_error {S A} (inj : string -> A) (func : M S A) : M S A :=
  fun s =>
    match func s with
    | (Return a, s') => (Return a, s')
    | (Raise (KeyError _), s') => (Return (inj "Enter name."), s')
    | (Raise (ValueError e), s') => (Return (inj e), s')
    | (Raise IndexError, s') =>
        (Return (inj "Enter the argument for the command."), s')
    | (Raise _, s') => (Return (inj "Invalid command."), s')
    end.

Definition handler (func : M World string) : M World string :=
  input_error (fun s => s) func.

Definition parse_input (user_input : string)
  : outcome (string * list string) :=
  let parts := str_split user_input in
  match parts with
  | [] => Raise IndexError
  | part0 :: args => Return (str_lower (str_strip part0), args)
  end.

(** ** Command handlers *)

Definition add_contact (args : list string) : M World string :=
  handler
    (match args with
     | nm :: ((_ :: _) as phone_list) =>
         w <- get ;;
         match AddressBook_find nm (address_book w) with
         | Some _ =>
             for_each phone_list
               (fun phone => on_record nm (Record_add_phone phone)) ;;
             ret ("Phone number(s) added to contact '" ++ nm ++ "'.")
         | None =>
             record <- lift (Record_init nm) ;;
             record <- on_local (for_each phone_list Record_add_phone)
                         record ;;
             on_book (AddressBook_add_record record) ;;
             ret "Contact added."
         end
     | _ =>
         raise (ValueError
           "Give me name and at least one phone number, separated by spaces.")
     end).

(** [{str(i): phone for i, phone in enumerate(phones)}] *)
Definition enumerate_phones (l : list Phone) : dict Phone :=
  combine (map str_of_nat (seq 0 (List.length l))) l.

Definition change_contact (args : list string) : M World string :=
  handler
    (match args with
     | [] | [_] =>
         raise (ValueError "Please provide both name and new phone number.")
     | [nm; new_phone] =>
         available_phones <-
           on_record nm (r <- get ;; ret (enumerate_phones (phones r))) ;;
         print ("Available phone numbers for contact " ++ nm ++ ":") ;;
         for_each available_phones
           (fun '(i, phone) => print (i ++ ": " ++ phone_value phone)) ;;
         except_KeyError
           (chosen_phone <-
              input "Enter the number of the phone you want to change: " ;;
            phone <- lift (dict_item chosen_phone available_phones) ;;
            let old_phone := phone_value phone in
            on_record nm (Record_remove_phone old_phone) ;;
            on_record nm (Record_add_phone new_phone) ;;
            ret "Contact updated.")
           (ret "Invalid phone number. Please enter a valid number.")
     | _ =>
         raise (ValueError
           "Please provide the contact name and the new phone number only.")
     end).

Definition show_phone (args : list string) : M World string :=
  handler
    (match args with
     | [] =>
         ret "Please provide the name of the contact or type 'phone <contact_name>'."
     | nm :: _ =>
         w <- get ;;
         match AddressBook_find nm (address_book w) with
         | Some record =>
             let phone_list := Record_find_phone_all record in
             if Nat.eqb (List.length phone_list) 1
             then ret ("The phone number for contact '" ++ nm ++ "' is: "
                       ++ str_join ", " phone_list ++ ".")
             else ret ("The phone numbers for contact '" ++ nm ++ "' are: "
                       ++ str_join ", " phone_list ++ ".")
         | None => ret ("Contact '" ++ nm ++ "' not found.")
         end
     end).

Definition show_all_contacts : M World string :=
  handler
    (w <- get ;;
     match address_book w with
     | [] => ret "No contacts found."
     | _ => ret (str_join newline (map (fun kv => Record_str (snd kv))
                                       (address_book w)))
     end).

Definition process_input (command : string) (args : list string)
  : M World string :=
  handler
    (if command =? "hello" then ret "How can I help you?"
     else if command =? "add" then add_contact args
     else if command =? "change" then change_contact args
     else if command =? "phone" then show_phone args
     else if command =? "all" then show_all_contacts
     else ret "Invalid command.").

(** ** The main loop *)

Inductive loop_end : Type :=
| Break        (* the [break] of the loop *)
| OutOfFuel.   (* the bound on the iterations was reached *)

(** [while True: ...], at most [fuel] iterations. *)
Fixpoint main_loop (fuel : nat) : M World loop_end :=
  match fuel with
  | O => ret OutOfFuel
  | S fuel' =>
      user_input <- input "Enter a command: " ;;
      '(command, args) <- lift (parse_input user_input) ;;
      if (command =? "close") || (command =? "exit")
      then print "Good bye!" ;; ret Break
      else
        reply <- process_input command args ;;
        print reply ;;
        main_loop fuel'
  end.

(** [main] returns [None] after the [break], and the message of the
    decorator when an exception leaves the loop. *)
Definition main_with (fuel : nat) : M World (option string) :=
  input_error Some
    (print "Welcome to the assistant bot!" ;;
     main_loop fuel ;;
     ret None).

Definition start (lines : list string) : World :=
  {| address_book := []; stdin := lines; stdout := [] |}.

(** Every iteration reads a line, so one iteration more than there are
    lines is enough (see [main_loop_enough_fuel]). *)
Definition main (lines : list string) : outcome (option string) * World :=
  main_with (S (List.length lines)) (start lines).

(** ** Predicates and sample values of the statements *)

(** Exactly ten characters, all of them digits for [str.isdigit]. *)
Definition ten_digits (raw : string) : bool :=
  Nat.eqb (String.length raw) 10 && str_all char_isdigit raw.

(** Exactly ten ASCII decimal digits. *)
Definition ten_ascii_digits (raw : string) : bool :=
  Nat.eqb (String.length raw) 10 && str_all char_is_ascii_digit raw.

(** U+00B2, SUPERSCRIPT TWO. *)
Definition superscript_two : ascii := ascii_of_N 0xB2.

Definition ten_superscripts : string :=
  string_of_list_ascii (repeat superscript_two 10).

(** [Record("bob")], and the same after [add_phone("1234567890")]. *)
Definition record_bob : RecordObj := {| name := mkName "bob"; phones := [] |}.

(** A phone that passed the validation of [Phone]. *)
Definition phone_ok (p : Phone) : Prop := ten_digits (phone_value p) = true.

Definition record_one_phone : RecordObj :=
  {| name := mkName "bob"; phones := [mkPhone "1234567890"] |}.

(** The world after the outputs [l]. *)
Definition writes (l : list output) (w : World) : World :=
  {| address_book := address_book w; stdin := stdin w;
     stdout := (stdout w ++ l)%list |}.

(** What [change] writes before it reads the choice. *)
Definition change_dialogue (nm : string) (l : list Phone) : list output :=
  (Printed ("Available phone numbers for contact " ++ nm ++ ":")
   :: map (fun kv => Printed (fst kv ++ ": " ++ phone_value (snd kv)))
        (enumerate_phones l)
   ++ [Prompt "Enter the number of the phone you want to change: "])%list.

(** A book with one contact that has two phones, and two lines to read. *)
Definition record_john : RecordObj :=
  {| name := mkName "john";
     phones := [mkPhone "1234567890"; mkPhone "3333333333"] |}.

Definition world_john : World :=
  {| address_book := [("john", record_john)]; stdin := ["1"; "all"];
     stdout := [] |}.

(** A computation that leaves no more lines to read than it found. *)
Definition reads_on {A} (c : M World A) : Prop :=
  forall w, List.length (stdin (snd (c w))) <= List.length (stdin w).

(** A sequence of calls of [add_phone] and [remove_phone] on one record; a
    call that raises leaves the record as it is and the next call runs. *)
Inductive record_op : Type :=
| OpAdd (phone : string)
| OpRemove (phone : string).

Definition run_op (op : record_op) : M RecordObj unit :=
  match op with
  | OpAdd phone => Record_add_phone phone
  | OpRemove phone => Record_remove_phone phone
  end.

Fixpoint run_ops (ops : list record_op) (r : RecordObj) : RecordObj :=
  match ops with
  | [] => r
  | op :: ops' => run_ops ops' (snd (run_op op r))
  end.

(** A stored name: alphabetic, not empty, and its own lower-casing. *)
Definition name_ok (n : string) : Prop :=
  str_isalpha n = true /\ str_lower n = n.

Definition record_ok (r : RecordObj) : Prop :=
  name_ok (name_value (name r)) /\ Forall phone_ok (phones r).

(** A book whose keys are pairwise distinct and whose records are valid
    and stored under their own names. *)
Definition entry_ok (kv : string * RecordObj) : Prop :=
  fst kv = name_value (name (snd kv)) /\ record_ok (snd kv).

Definition book_ok (book : AddressBook) : Prop :=
  dict_ok book /\ Forall entry_ok book.

(** A word of [str.split()]: not empty and without white space. *)
Definition no_space (c : ascii) : bool := negb (char_isspace c).

Definition token (t : string) : Prop :=
  str_nonempty t = true /\ str_all no_space t = true.

(** A computation that keeps the book valid and whose result, when it
    returns one, satisfies [Q]. *)
Definition keeps {A} (c : M World A) (Q : A -> Prop) : Prop :=
  forall w,
    book_ok (address_book w) ->
    book_ok (address_book (snd (c w)))
    /\ (forall a, fst (c w) = Return a -> Q a).

Definition anything {A} : A -> Prop := fun _ => True.

(** A computation whose final world is related to its initial world by
    [R], whether it returns or raises. *)
Definition steps (R : World -> World -> Prop) {A} (c : M World A) : Prop :=
  forall w, R w (snd (c w)).

(** Every name that is a key of the book before is one after. *)
Definition contacts_kept (w w' : World) : Prop :=
  incl (map fst (address_book w)) (map fst (address_book w')).


(** * Properties *)

(** ** Characters and strings *)

Ltac each_char c := destruct c as [[] [] [] [] [] [] [] []]; vm_compute.

Lemma char_lower_isalpha (c : ascii) :
  char_isalpha (char_lower c) = char_isalpha c.
Proof. each_char c; reflexivity. Qed.

Lemma char_ascii_digit_isdigit (c : ascii) :
  char_is_ascii_digit c = true -> char_isdigit c = true.
Proof. each_char c; intros H; first [reflexivity | discriminate H]. Qed.

Lemma char_isdigit_ascii (c : ascii) :
  char_is_ascii c = true -> char_isdigit c = char_is_ascii_digit c.
Proof. each_char c; intros H; first [reflexivity | discriminate H]. Qed.

Lemma str_all_lower_isalpha (s : string) :
  str_all char_isalpha (str_lower s) = str_all char_isalpha s.
Proof.
  induction s as [|c s IH]; simpl.
  - reflexivity.
  - rewrite char_lower_isalpha. unfold str_lower in IH. now rewrite IH.
Qed.

Lemma str_nonempty_lower (s : string) :
  str_nonempty (str_lower s) = str_nonempty s.
Proof. now destruct s. Qed.

Lemma str_isalpha_lower (s : string) :
  str_isalpha (str_lower s) = str_isalpha s.
Proof.
  unfold str_isalpha. now rewrite str_nonempty_lower, str_all_lower_isalpha.
Qed.

Lemma str_all_false (p : ascii -> bool) (s : string) (c : ascii) :
  In c (list_ascii_of_string s) -> p c = false -> str_all p s = false.
Proof.
  induction s as [|d s IH]; simpl.
  - intros [].
  - intros [-> | Hin] Hc.
    + now rewrite Hc.
    + rewrite (IH Hin Hc). apply andb_false_r.
Qed.

Lemma str_all_weaken (p q : ascii -> bool) (s : string) :
  (forall c, p c = true -> q c = true) ->
  str_all p s = true -> str_all q s = true.
Proof.
  intros Hpq. induction s as [|c s IH]; simpl; [reflexivity|].
  intros H. apply andb_true_iff in H as [Hc Hs].
  now rewrite (Hpq c Hc), (IH Hs).
Qed.

Lemma str_all_agree (a p q : ascii -> bool) (s : string) :
  (forall c, a c = true -> p c = q c) ->
  str_all a s = true -> str_all p s = str_all q s.
Proof.
  intros Hpq. induction s as [|c s IH]; simpl; [reflexivity|].
  intros H. apply andb_true_iff in H as [Hc Hs].
  now rewrite (Hpq c Hc), (IH Hs).
Qed.

(** ** Field validation *)

Lemma Phone_init_ten_digits (raw : string) :
  Phone_init raw =
  if ten_digits raw then Return (mkPhone raw)
  else Raise (ValueError Phone_error).
Proof.
  unfold Phone_init, ten_digits, str_isdigit.
  destruct raw as [|c raw]; [reflexivity|].
  cbn [str_nonempty andb].
  destruct (str_all char_isdigit (String c raw));
    destruct (Nat.eqb (String.length (String c raw)) 10); reflexivity.
Qed.

(** C6, counterexample: the string of ten characters U+00B2 (superscript
    two) is not made of ASCII decimal digits, and [Phone] accepts it. *)
Lemma Phone_init_accepts_superscripts :
  ten_ascii_digits ten_superscripts = false
  /\ Phone_init ten_superscripts = Return (mkPhone ten_superscripts).
Proof. split; reflexivity. Qed.

(** C6, amended: [Phone(raw)] succeeds exactly when [raw] has ten characters
    that are all digits for [str.isdigit], and raises the format error
    otherwise; ten ASCII decimal digits are always accepted, and among the
    strings of ASCII characters nothing else is. *)
Theorem Phone_init_spec (raw : string) :
  (Phone_init raw = Return (mkPhone raw) <-> ten_digits raw = true)
  /\ (Phone_init raw = Raise (ValueError Phone_error)
      <-> ten_digits raw = false)
  /\ (ten_ascii_digits raw = true -> Phone_init raw = Return (mkPhone raw))
  /\ (str_all char_is_ascii raw = true ->
      (Phone_init raw = Return (mkPhone raw)
       <-> ten_ascii_digits raw = true)).
Proof.
  rewrite Phone_init_ten_digits.
  assert (Hweak : ten_ascii_digits raw = true -> ten_digits raw = true).
  { unfold ten_ascii_digits, ten_digits. intros H.
    apply andb_true_iff in H as [Hlen Hall]. rewrite Hlen. simpl.
    revert Hall. apply str_all_weaken, char_ascii_digit_isdigit. }
  split; [|split; [|split]].
  - destruct (ten_digits raw); split; intros E;
      first [reflexivity | discriminate E].
  - destruct (ten_digits raw); split; intros E;
      first [reflexivity | discriminate E].
  - intros H. now rewrite (Hweak H).
  - intros Hascii. unfold ten_ascii_digits.
    rewrite <- (str_all_agree char_is_ascii char_isdigit char_is_ascii_digit
                  raw char_isdigit_ascii Hascii).
    fold (ten_digits raw).
    destruct (ten_digits raw); split; intros E;
      first [reflexivity | discriminate E].
Qed.

(** C7: [Name(raw)] stores the lower-cased [raw] whenever it succeeds; it
    raises the format error when [raw] is empty and when some character of
    [raw] is not alphabetic; and ["Bob"] and ["BOB"] both give the stored
    value ["bob"]. *)
Theorem Name_init_spec (raw : string) :
  (Name_init raw = Return (mkName (str_lower raw))
   \/ Name_init raw = Raise (ValueError Name_error))
  /\ (forall n, Name_init raw = Return n -> name_value n = str_lower raw)
  /\ (raw = "" -> Name_init raw = Raise (ValueError Name_error))
  /\ (forall c, In c (list_ascii_of_string raw) -> char_isalpha c = false ->
      Name_init raw = Raise (ValueError Name_error))
  /\ Name_init "Bob" = Return (mkName "bob")
  /\ Name_init "BOB" = Return (mkName "bob").
Proof.
  unfold Name_init. rewrite str_isalpha_lower.
  repeat split.
  - destruct (str_isalpha raw); [now left | now right].
  - intros n. destruct (str_isalpha raw); simpl; [|discriminate].
    now intros [= <-].
  - now intros ->.
  - intros c Hin Hc. unfold str_isalpha.
    rewrite (str_all_false _ _ _ Hin Hc), andb_false_r. reflexivity.
Qed.

(** ** Dictionaries *)

Section Dict.

Context {V : Type}.
Implicit Types (d : dict V) (k : string) (v : V).

Lemma dict_get_set_same k v d : dict_get k (dict_set k v d) = Some v.
Proof.
  induction d as [|[k' v'] d IH]; simpl.
  - now rewrite String.eqb_refl.
  - destruct (String.eqb k' k) eqn:E; simpl.
    + now rewrite String.eqb_refl.
    + now rewrite E.
Qed.

Lemma dict_get_set_other k k' v d :
  k' <> k -> dict_get k' (dict_set k v d) = dict_get k' d.
Proof.
  intros Hne. induction d as [|[k0 v0] d IH]; simpl.
  - apply String.eqb_neq in Hne. rewrite String.eqb_sym. now rewrite Hne.
  - destruct (String.eqb k0 k) eqn:E; simpl.
    + apply String.eqb_eq in E. subst k0.
      assert (E' : String.eqb k k' = false)
        by (rewrite String.eqb_sym; now apply String.eqb_neq).
      now rewrite E'.
    + now rewrite IH.
Qed.

Lemma dict_get_remove_same k d : dict_get k (dict_remove k d) = None.
Proof.
  induction d as [|[k' v'] d IH]; simpl; [reflexivity|].
  destruct (String.eqb k' k) eqn:E; simpl; [exact IH|].
  now rewrite E.
Qed.

Lemma dict_get_None k d : dict_get k d = None <-> ~ In k (map fst d).
Proof.
  induction d as [|[k' v'] d IH]; simpl.
  - split; [intros _ [] | reflexivity].
  - destruct (String.eqb k' k) eqn:E.
    + apply String.eqb_eq in E. split; [discriminate|]. intros H.
      exfalso. apply H. now left.
    + apply String.eqb_neq in E. rewrite IH. split.
      * intros H [Hk | Hin]; [now apply E | now apply H].
      * intros H Hin. apply H. now right.
Qed.

Lemma dict_set_same_value k v d : dict_get k d = Some v -> dict_set k v d = d.
Proof.
  induction d as [|[k' v'] d IH]; simpl; [discriminate|].
  destruct (String.eqb k' k) eqn:E.
  - apply String.eqb_eq in E. now intros [= ->]; subst.
  - intros H. now rewrite (IH H).
Qed.

Lemma dict_set_set k v v' d :
  dict_set k v' (dict_set k v d) = dict_set k v' d.
Proof.
  induction d as [|[k0 v0] d IH]; simpl.
  - now rewrite String.eqb_refl.
  - destruct (String.eqb k0 k) eqn:E; simpl.
    + now rewrite String.eqb_refl.
    + now rewrite E, IH.
Qed.

Lemma dict_set_keys k v d :
  dict_get k d <> None -> map fst (dict_set k v d) = map fst d.
Proof.
  induction d as [|[k' v'] d IH]; simpl; [congruence|].
  destruct (String.eqb k' k) eqn:E; simpl.
  - apply String.eqb_eq in E. now subst.
  - intros H. now rewrite (IH H).
Qed.

Lemma dict_set_new_key k v d :
  dict_get k d = None -> map fst (dict_set k v d) = (map fst d ++ [k])%list.
Proof.
  induction d as [|[k' v'] d IH]; simpl; [reflexivity|].
  destruct (String.eqb k' k); [discriminate|]. intros H. simpl.
  now rewrite (IH H).
Qed.

Lemma dict_remove_keys k d :
  map fst (dict_remove k d)
  = filter (fun k' => negb (String.eqb k' k)) (map fst d).
Proof.
  induction d as [|[k' v'] d IH]; simpl; [reflexivity|].
  destruct (String.eqb k' k); simpl; now rewrite IH.
Qed.

(** Assignment and deletion keep the keys pairwise distinct. *)
Lemma dict_ok_set k v d : dict_ok d -> dict_ok (dict_set k v d).
Proof.
  unfold dict_ok. intros H. destruct (dict_get k d) as [v0|] eqn:E.
  - rewrite dict_set_keys; [exact H | congruence].
  - rewrite (dict_set_new_key _ _ _ E).
    apply NoDup_app; [exact H | repeat constructor; intros [] |].
    intros k' Hin [<- | []]. now apply dict_get_None in E.
Qed.

Lemma dict_ok_remove k d : dict_ok d -> dict_ok (dict_remove k d).
Proof.
  unfold dict_ok. intros H. rewrite dict_remove_keys. now apply NoDup_filter.
Qed.

End Dict.

(** ** AddressBook *)

(** C8: after [add_record(r)], [find] on the stored name of [r] returns
    [r]; after [delete] on that name (which succeeds) [find] returns
    [None]; and [delete] on a name that is not in the book raises
    [KeyError] and leaves the book as it was. *)
Theorem AddressBook_round_trip (book : AddressBook) (r : RecordObj) :
  let nm := name_value (name r) in
  exists book1 book2,
    AddressBook_add_record r book = (Return tt, book1)
    /\ AddressBook_find nm book1 = Some r
    /\ AddressBook_delete nm book1 = (Return tt, book2)
    /\ AddressBook_find nm book2 = None
    /\ forall other b,
         AddressBook_find other b = None ->
         AddressBook_delete other b = (Raise (KeyError other), b).
Proof.
  intros nm.
  exists (dict_set nm r book), (dict_remove nm (dict_set nm r book)).
  unfold AddressBook_add_record, AddressBook_find, AddressBook_delete, modify.
  fold nm. rewrite dict_get_set_same, dict_get_remove_same.
  repeat split. intros other b H. now rewrite H.
Qed.

(** C2, counterexample: the record made from ["Bob"] is stored under
    ["bob"]; ["BOB"] lower-cased is that stored name, and [find("BOB")]
    returns [None]. *)
Lemma AddressBook_find_not_normalized :
  Record_init "Bob" = Return record_bob
  /\ AddressBook_add_record record_bob [] = (Return tt, [("bob", record_bob)])
  /\ str_lower "BOB" = name_value (name record_bob)
  /\ AddressBook_find "BOB" [("bob", record_bob)] = None.
Proof. repeat split. Qed.

(** C2, amended: [find] looks the given string up as it is, without
    lower-casing it.  A record stored by [add_record] is returned by [find]
    on its stored name; on any other string [find] answers as before the
    [add_record]; and [find] returns [None] (a value, not an exception)
    exactly when no record is stored under that very string. *)
Theorem AddressBook_find_exact (book : AddressBook) (r : RecordObj)
    (s : string) :
  let book1 := snd (AddressBook_add_record r book) in
  AddressBook_find (name_value (name r)) book1 = Some r
  /\ (s <> name_value (name r) ->
      AddressBook_find s book1 = AddressBook_find s book)
  /\ (AddressBook_find s book = None <-> ~ In s (map fst book)).
Proof.
  unfold AddressBook_add_record, AddressBook_find, modify. simpl.
  split; [apply dict_get_set_same | split].
  - intros Hne. now apply dict_get_set_other.
  - apply dict_get_None.
Qed.

(** ** Record *)

Lemma Phone_eqb_refl (p : Phone) : Phone_eqb p p = true.
Proof. apply String.eqb_refl. Qed.

Lemma Phone_value_inj (p q : Phone) : phone_value p = phone_value q -> p = q.
Proof. destruct p, q; simpl. now intros ->. Qed.

Lemma set_phones_same (r : RecordObj) : set_phones (phones r) r = r.
Proof. now destruct r. Qed.

(** What the loop of [remove_phone] finds, and what [list.remove] then
    does: the list is cut at the first phone with the given value. *)
Lemma find_then_remove (phone : string) (l : list Phone) :
  match find (fun p => String.eqb (phone_value p) phone) l with
  | Some p =>
      exists l1 l2,
        l = (l1 ++ p :: l2)%list
        /\ phone_value p = phone
        /\ (forall q, In q l1 -> phone_value q <> phone)
        /\ list_remove p l = (l1 ++ l2)%list
  | None => forall q, In q l -> phone_value q <> phone
  end.
Proof.
  induction l as [|q l IH]; simpl.
  - intros q [].
  - destruct (String.eqb (phone_value q) phone) eqn:E.
    + exists [], l. rewrite Phone_eqb_refl. apply String.eqb_eq in E.
      repeat split; trivial. intros ? [].
    + destruct (find _ l) as [p|].
      * destruct IH as (l1 & l2 & -> & Hp & Hl1 & Hrem).
        exists (q :: l1), l2. unfold Phone_eqb. rewrite Hp, E, Hrem.
        repeat split; trivial.
        intros q' [<- | Hin]; [now apply String.eqb_neq | now apply Hl1].
      * intros q' [<- | Hin]; [now apply String.eqb_neq | now apply IH].
Qed.

Lemma Record_remove_phone_cut (r : RecordObj) (phone : string) :
  (exists l1 p l2,
      phones r = (l1 ++ p :: l2)%list
      /\ phone_value p = phone
      /\ (forall q, In q l1 -> phone_value q <> phone)
      /\ Record_remove_phone phone r
         = (Return tt, set_phones (l1 ++ l2) r))
  \/ ((forall q, In q (phones r) -> phone_value q <> phone)
      /\ Record_remove_phone phone r
         = (Raise (ValueError Phone_not_found), r)).
Proof.
  unfold Record_remove_phone.
  pose proof (find_then_remove phone (phones r)) as H.
  destruct (find _ (phones r)) as [p|].
  - left. destruct H as (l1 & l2 & Hl & Hp & Hl1 & Hrem).
    exists l1, p, l2. now rewrite Hrem.
  - right. now split.
Qed.

(** C9: [remove_phone(phone)] either cuts out the first phone whose value
    is [phone], leaving the phones before and after it (later duplicates
    included) and the name as they were, or, when no phone has that value,
    raises the not-found error and leaves the record unchanged; on a record
    without phones it always raises it. *)
Theorem Record_remove_phone_spec (r : RecordObj) (phone : string) :
  ((exists l1 p l2,
      phones r = (l1 ++ p :: l2)%list
      /\ phone_value p = phone
      /\ (forall q, In q l1 -> phone_value q <> phone)
      /\ Record_remove_phone phone r
         = (Return tt, set_phones (l1 ++ l2) r))
   \/ ((forall q, In q (phones r) -> phone_value q <> phone)
       /\ Record_remove_phone phone r
          = (Raise (ValueError Phone_not_found), r)))
  /\ (phones r = [] ->
      Record_remove_phone phone r = (Raise (ValueError Phone_not_found), r)).
Proof.
  split.
  - apply Record_remove_phone_cut.
  - unfold Record_remove_phone. now intros ->.
Qed.

(** [edit_phone] overwrites the value of the first phone whose value is
    [old_phone] with [new_phone] as it is given; [Phone] is not
    called. *)
Lemma Record_edit_phone_cut (r : RecordObj) (old_phone new_phone : string) :
  (exists l1 p l2,
      phones r = (l1 ++ p :: l2)%list
      /\ phone_value p = old_phone
      /\ (forall q, In q l1 -> phone_value q <> old_phone)
      /\ Record_edit_phone old_phone new_phone r
         = (Return tt, set_phones (l1 ++ mkPhone new_phone :: l2) r))
  \/ ((forall q, In q (phones r) -> phone_value q <> old_phone)
      /\ Record_edit_phone old_phone new_phone r
         = (Raise (ValueError Phone_not_found), r)).
Proof.
  unfold Record_edit_phone. destruct r as [nm l]. simpl.
  induction l as [|q l IH]; simpl.
  - right. split; [intros ? [] | reflexivity].
  - destruct (String.eqb (phone_value q) old_phone) eqn:E.
    + left. exists [], q, l. apply String.eqb_eq in E.
      repeat split; trivial. intros ? [].
    + apply String.eqb_neq in E.
      destruct IH as [(l1 & p & l2 & -> & Hp & Hl1 & Hrun) | [Hnone Hrun]].
      * left. exists (q :: l1), p, l2.
        destruct (edit_first old_phone new_phone (l1 ++ p :: l2));
          [|discriminate]. injection Hrun as Hl0. simpl. rewrite Hl0.
        repeat split; trivial.
        intros q' [<- | Hin]; [exact E | now apply Hl1].
      * right. destruct (edit_first old_phone new_phone l); [discriminate|].
        split; [|reflexivity].
        intros q' [<- | Hin]; [exact E | now apply Hnone].
Qed.

(** [add_phone] and [remove_phone] keep every phone of a record valid. *)
Lemma Record_add_phone_ok (phone : string) (r : RecordObj) :
  Forall phone_ok (phones r) ->
  Forall phone_ok (phones (snd (Record_add_phone phone r))).
Proof.
  intros H. unfold Record_add_phone, bind, lift, modify.
  rewrite Phone_init_ten_digits.
  destruct (ten_digits phone) eqn:E; simpl; [|exact H].
  apply Forall_app. split; [exact H|]. now repeat constructor.
Qed.

Lemma Record_remove_phone_ok (phone : string) (r : RecordObj) :
  Forall phone_ok (phones r) ->
  Forall phone_ok (phones (snd (Record_remove_phone phone r))).
Proof.
  intros H. unfold Record_remove_phone.
  pose proof (find_then_remove phone (phones r)) as Hf.
  destruct (find _ (phones r)) as [p|]; simpl; [|exact H].
  destruct Hf as (l1 & l2 & Hl & _ & _ & ->). rewrite Hl in H.
  apply Forall_app in H as [H1 H2]. apply Forall_app. split; [exact H1|].
  now inversion H2.
Qed.

(** C1, the code at the failing input: on the record made by
    [Record("bob")] and [add_phone("1234567890")], the call
    [edit_phone("1234567890", "abc")] succeeds and leaves the phone
    ["abc"], which is not a string of ten digits, in the record. *)
Theorem Record_edit_phone_stores_unvalidated :
  Record_init "bob" = Return record_bob
  /\ Record_add_phone "1234567890" record_bob = (Return tt, record_one_phone)
  /\ Record_edit_phone "1234567890" "abc" record_one_phone
     = (Return tt, {| name := mkName "bob"; phones := [mkPhone "abc"] |})
  /\ ten_digits "abc" = false
  /\ Phone_init "abc" = Raise (ValueError Phone_error).
Proof. repeat split. Qed.

Lemma Record_add_phone_valid (phone : string) (r : RecordObj) :
  ten_digits phone = true ->
  Record_add_phone phone r
  = (Return tt, set_phones (phones r ++ [mkPhone phone]) r).
Proof.
  intros H. unfold Record_add_phone, bind, lift, modify.
  now rewrite Phone_init_ten_digits, H.
Qed.

Lemma Record_add_phone_invalid (phone : string) (r : RecordObj) :
  ten_digits phone = false ->
  Record_add_phone phone r = (Raise (ValueError Phone_error), r).
Proof.
  intros H. unfold Record_add_phone, bind, lift, modify.
  now rewrite Phone_init_ten_digits, H.
Qed.

(** ** Running handlers in the world *)

Lemma set_book_same (w : World) : set_book (address_book w) w = w.
Proof. now destruct w. Qed.

Lemma on_record_found {A} (key : string) (c : M RecordObj A) (w : World)
    (r : RecordObj) :
  AddressBook_find key (address_book w) = Some r ->
  on_record key c w
  = (fst (c r), set_book (dict_set key (snd (c r)) (address_book w)) w).
Proof. unfold on_record. intros ->. now destruct (c r). Qed.

Lemma on_record_missing {A} (key : string) (c : M RecordObj A) (w : World) :
  AddressBook_find key (address_book w) = None ->
  on_record key c w = (Raise AttributeError, w).
Proof. unfold on_record. now intros ->. Qed.

Lemma for_each_print {A} (body : A -> M World unit) (f : A -> string)
    (l : list A) (w : World) :
  (forall x, body x = print (f x)) ->
  for_each l body w
  = (Return tt, writes (map (fun x => Printed (f x)) l) w).
Proof.
  intros Hbody. revert w. induction l as [|x l IH]; intros w; simpl.
  - unfold ret, writes. rewrite app_nil_r. now destruct w.
  - unfold bind. rewrite Hbody. unfold print, modify. rewrite IH.
    unfold writes, write. simpl. now rewrite <- app_assoc.
Qed.

(** [str(i)] tells numbers apart, so the keys of [available_phones] are
    the positions. *)
Lemma str_of_nat_inj (a b : nat) : str_of_nat a = str_of_nat b -> a = b.
Proof.
  unfold str_of_nat. intros H.
  assert (E : Some (Nat.to_uint a) = Some (Nat.to_uint b))
    by (rewrite <- !NilEmpty.usu; now rewrite H).
  injection E as E.
  rewrite <- (DecimalNat.Unsigned.of_to a), <- (DecimalNat.Unsigned.of_to b).
  now rewrite E.
Qed.

Lemma dict_get_enumerate_from (l : list Phone) (a i : nat) :
  dict_get (str_of_nat (a + i))
    (combine (map str_of_nat (seq a (List.length l))) l)
  = nth_error l i.
Proof.
  revert a i. induction l as [|p l IH]; intros a i; simpl.
  - now destruct i.
  - destruct i as [|i].
    + rewrite Nat.add_0_r, String.eqb_refl. reflexivity.
    + assert (E : String.eqb (str_of_nat a) (str_of_nat (a + S i)) = false).
      { apply String.eqb_neq. intros H. apply str_of_nat_inj in H. lia. }
      rewrite E. simpl. rewrite <- (IH (S a) i). f_equal. f_equal. lia.
Qed.

Lemma dict_get_enumerate (l : list Phone) (i : nat) :
  dict_get (str_of_nat i) (enumerate_phones l) = nth_error l i.
Proof. apply (dict_get_enumerate_from l 0 i). Qed.

(** C10: when the contact exists, the line read selects one of its phones
    and the new phone is not ten digits, [change] answers with the
    validation error, the first phone with the value of the selected one is
    gone from the record (one phone less, the others in their order) and
    the new phone is not added. *)
Theorem change_contact_invalid_new_phone (w : World) (nm new_phone : string)
    (r : RecordObj) (i : nat) (p : Phone) (rest : list string) :
  AddressBook_find nm (address_book w) = Some r ->
  nth_error (phones r) i = Some p ->
  stdin w = str_of_nat i :: rest ->
  ten_digits new_phone = false ->
  exists l1 q l2,
    phones r = (l1 ++ q :: l2)%list
    /\ phone_value q = phone_value p
    /\ (forall q', In q' l1 -> phone_value q' <> phone_value p)
    /\ change_contact [nm; new_phone] w
       = (Return Phone_error,
          {| address_book :=
               dict_set nm (set_phones (l1 ++ l2) r) (address_book w);
             stdin := rest;
             stdout := (stdout w ++ change_dialogue nm (phones r))%list |}).
Proof.
  intros Hfind Hnth Hin Hbad.
  destruct (Record_remove_phone_cut r (phone_value p))
    as [(l1 & q & l2 & Hl & Hq & Hl1 & Hrem) | [Hnone _]].
  2:{ exfalso. apply (Hnone p); [|reflexivity].
      now apply nth_error_In with i. }
  exists l1, q, l2. repeat split; trivial.
  unfold change_contact, handler, input_error.
  unfold bind at 1.
  rewrite (on_record_found nm _ _ r Hfind).
  cbn [fst snd get ret bind].
  rewrite (dict_set_same_value _ _ _ Hfind), set_book_same.
  unfold bind at 1. unfold print at 1. unfold modify at 1.
  unfold bind at 1.
  rewrite (for_each_print _ (fun kv => fst kv ++ ": " ++ phone_value (snd kv)))
    by (now intros [k v]).
  unfold except_KeyError. unfold bind at 1.
  unfold input. cbn [stdin stdout address_book write writes]. rewrite Hin.
  unfold bind at 1. unfold lift at 1. unfold dict_item.
  rewrite dict_get_enumerate, Hnth.
  unfold bind at 1.
  erewrite on_record_found by (cbn [address_book]; exact Hfind).
  rewrite Hrem. cbn [fst snd address_book set_book stdin stdout].
  unfold bind at 1.
  erewrite on_record_found
    by (cbn [address_book]; unfold AddressBook_find; apply dict_get_set_same).
  rewrite (Record_add_phone_invalid _ _ Hbad).
  cbn [fst snd address_book set_book stdin stdout].
  rewrite dict_set_set. unfold change_dialogue.
  now rewrite <- !app_assoc.
Qed.

(** [change john 55] with the choice [1] in the world [world_john]. *)
Lemma change_contact_invalid_new_phone_witness :
  exists l1 q l2,
    phones record_john = (l1 ++ q :: l2)%list
    /\ phone_value q = "3333333333"
    /\ (forall q', In q' l1 -> phone_value q' <> "3333333333")
    /\ change_contact ["john"; "55"] world_john
       = (Return Phone_error,
          {| address_book :=
               dict_set "john" (set_phones (l1 ++ l2) record_john)
                 (address_book world_john);
             stdin := ["all"];
             stdout :=
               (stdout world_john
                ++ change_dialogue "john" (phones record_john))%list |}).
Proof.
  apply (change_contact_invalid_new_phone world_john "john" "55" record_john
           1 (mkPhone "3333333333") ["all"]); reflexivity.
Defined.

(** C5, what the code does: when no record is stored under the name,
    [change] answers ["Invalid command."], the message of the catch-all
    clause of the decorator (the exception is the [AttributeError] of
    [None.phones], not a [KeyError]), and the world is unchanged. *)
Theorem change_contact_missing (w : World) (nm new_phone : string) :
  AddressBook_find nm (address_book w) = None ->
  change_contact [nm; new_phone] w = (Return "Invalid command.", w).
Proof.
  intros H. unfold change_contact, handler, input_error.
  unfold bind at 1. now rewrite (on_record_missing _ _ _ H).
Qed.

(** [change bob 1234567890] on the empty book. *)
Lemma change_contact_missing_witness :
  AddressBook_find "bob" (address_book (start [])) = None
  /\ change_contact ["bob"; "1234567890"] (start [])
     = (Return "Invalid command.", start []).
Proof.
  split; [reflexivity|].
  apply (change_contact_missing (start []) "bob" "1234567890"). reflexivity.
Defined.

(** ** [add] with a phone that fails validation *)

Lemma set_phones_twice (l l' : list Phone) (r : RecordObj) :
  set_phones l' (set_phones l r) = set_phones l' r.
Proof. reflexivity. Qed.

Lemma set_book_twice (b b' : AddressBook) (w : World) :
  set_book b' (set_book b w) = set_book b' w.
Proof. reflexivity. Qed.

(** The loop over the phones on a local record: the phones before the
    first invalid one are appended, then the loop raises. *)
Lemma for_each_add_phone_local (good : list string) (bad : string)
    (rest : list string) (r : RecordObj) :
  Forall (fun g => ten_digits g = true) good ->
  ten_digits bad = false ->
  for_each (good ++ bad :: rest)%list Record_add_phone r
  = (Raise (ValueError Phone_error),
     set_phones (phones r ++ map mkPhone good) r).
Proof.
  intros Hgood Hbad. revert r.
  induction Hgood as [|g good Hg _ IH]; intros r; simpl; unfold bind.
  - rewrite (Record_add_phone_invalid _ _ Hbad).
    now rewrite app_nil_r, set_phones_same.
  - rewrite (Record_add_phone_valid _ _ Hg), IH. simpl.
    now rewrite <- app_assoc.
Qed.

(** The same loop on the record the book holds under [nm]. *)
Lemma for_each_add_phone_book (nm : string) (good : list string)
    (bad : string) (rest : list string) (w : World) (r : RecordObj) :
  AddressBook_find nm (address_book w) = Some r ->
  Forall (fun g => ten_digits g = true) good ->
  ten_digits bad = false ->
  for_each (good ++ bad :: rest)%list
    (fun phone => on_record nm (Record_add_phone phone)) w
  = (Raise (ValueError Phone_error),
     set_book
       (dict_set nm (set_phones (phones r ++ map mkPhone good) r)
          (address_book w)) w).
Proof.
  intros Hfind Hgood Hbad. revert w r Hfind.
  induction Hgood as [|g good Hg _ IH]; intros w r Hfind; simpl; unfold bind.
  - rewrite (on_record_found _ _ _ _ Hfind).
    rewrite (Record_add_phone_invalid _ _ Hbad). simpl.
    now rewrite app_nil_r, set_phones_same.
  - rewrite (on_record_found _ _ _ _ Hfind).
    rewrite (Record_add_phone_valid _ _ Hg). simpl.
    erewrite IH
      by (cbn [address_book set_book]; unfold AddressBook_find;
          apply dict_get_set_same).
    cbn [address_book set_book phones set_phones name].
    rewrite dict_set_set. unfold set_book, set_phones. simpl.
    now rewrite <- app_assoc.
Qed.

(** C4, counterexample: on the empty book, [add b0b 123] lists the invalid
    phone ["123"], and the answer is the error of the name, not the one of
    the phone. *)
Lemma add_contact_reports_name_error :
  ten_digits "123" = false
  /\ AddressBook_find "b0b" (address_book (start [])) = None
  /\ add_contact ["b0b"; "123"] (start []) = (Return Name_error, start [])
  /\ Name_error <> Phone_error.
Proof. repeat split. discriminate. Qed.

(** C4, amended: when the phones listed before the first invalid one are
    [good] and [bad] is that invalid one, then: if a record is stored under
    the name, the answer is the validation error of the phone and the
    record has the phones of [good] appended; if none is stored, the world
    (the book with it) is unchanged, and the answer is the validation error
    of the phone when the name is valid and the validation error of the
    name when it is not. *)
Theorem add_contact_invalid_phone (w : World) (nm : string)
    (good : list string) (bad : string) (rest : list string) :
  Forall (fun g => ten_digits g = true) good ->
  ten_digits bad = false ->
  add_contact (nm :: good ++ bad :: rest)%list w
  = match AddressBook_find nm (address_book w) with
    | Some r =>
        (Return Phone_error,
         set_book
           (dict_set nm (set_phones (phones r ++ map mkPhone good) r)
              (address_book w)) w)
    | None =>
        (Return (if str_isalpha (str_lower nm) then Phone_error
                 else Name_error), w)
    end.
Proof.
  intros Hgood Hbad.
  assert (Hargs : exists x xs, (good ++ bad :: rest)%list = x :: xs)
    by (destruct good; simpl; eauto).
  destruct Hargs as (x & xs & Hargs).
  unfold add_contact. rewrite Hargs, <- Hargs. clear x xs Hargs.
  unfold handler, input_error. unfold bind at 1. unfold get at 1.
  destruct (AddressBook_find nm (address_book w)) as [r|] eqn:Hfind.
  - unfold bind at 1.
    now rewrite (for_each_add_phone_book nm good bad rest w r Hfind Hgood Hbad).
  - unfold bind at 1. unfold lift at 1, Record_init, Name_init.
    destruct (str_isalpha (str_lower nm)); simpl; [|reflexivity].
    unfold bind at 1. unfold on_local.
    now rewrite (for_each_add_phone_local good bad rest _ Hgood Hbad).
Qed.

(** [add john 4444444444 44 5555555555] in the world [world_john]. *)
Lemma add_contact_invalid_phone_witness :
  add_contact ["john"; "4444444444"; "44"; "5555555555"] world_john
  = (Return Phone_error,
     set_book
       (dict_set "john"
          (set_phones (phones record_john ++ map mkPhone ["4444444444"])
             record_john)
          (address_book world_john)) world_john).
Proof.
  apply (add_contact_invalid_phone world_john "john" ["4444444444"] "44"
           ["5555555555"]).
  - repeat constructor.
  - reflexivity.
Defined.

(** ** The main loop *)



Lemma reads_on_ret {A} (a : A) : reads_on (ret a).
Proof. intros w. simpl. lia. Qed.

Lemma reads_on_raise {A} (e : exn) : reads_on (@raise World A e).
Proof. intros w. simpl. lia. Qed.

Lemma reads_on_lift {A} (o : outcome A) : reads_on (lift o).
Proof. intros w. simpl. lia. Qed.

Lemma reads_on_get : reads_on (@get World).
Proof. intros w. simpl. lia. Qed.

Lemma reads_on_print (s : string) : reads_on (print s).
Proof. intros w. simpl. lia. Qed.

Lemma reads_on_input (prompt : string) : reads_on (input prompt).
Proof.
  intros [book sin sout]. unfold input. simpl. destruct sin; simpl; lia.
Qed.

Lemma reads_on_bind {A B} (c : M World A) (k : A -> M World B) :
  reads_on c -> (forall a, reads_on (k a)) -> reads_on (bind c k).
Proof.
  intros Hc Hk w. unfold bind. specialize (Hc w).
  destruct (c w) as [[a | e] w1]; simpl in *; [|exact Hc].
  specialize (Hk a w1). lia.
Qed.

Lemma reads_on_on_book {A} (c : M AddressBook A) : reads_on (on_book c).
Proof.
  intros w. unfold on_book. destruct (c (address_book w)). simpl. lia.
Qed.

Lemma reads_on_on_record {A} (key : string) (c : M RecordObj A) :
  reads_on (on_record key c).
Proof.
  intros w. unfold on_record.
  destruct (AddressBook_find key (address_book w)) as [r|]; [|simpl; lia].
  destruct (c r). simpl. lia.
Qed.

Lemma reads_on_on_local (c : M RecordObj unit) (r : RecordObj) :
  reads_on (on_local c r).
Proof. intros w. unfold on_local. destruct (c r) as [[] ?]; simpl; lia. Qed.

Lemma reads_on_for_each {A} (l : list A) (body : A -> M World unit) :
  (forall x, reads_on (body x)) -> reads_on (for_each l body).
Proof.
  intros Hbody. induction l as [|x l IH]; simpl.
  - apply reads_on_ret.
  - apply reads_on_bind; [apply Hbody | intros _; exact IH].
Qed.

Lemma reads_on_except {A} (body handle : M World A) :
  reads_on body -> reads_on handle -> reads_on (except_KeyError body handle).
Proof.
  intros Hb Hh w. unfold except_KeyError. specialize (Hb w).
  destruct (body w) as [[a | []] w1]; simpl in *; try exact Hb.
  specialize (Hh w1). lia.
Qed.

Lemma reads_on_input_error {A} (inj : string -> A) (func : M World A) :
  reads_on func -> reads_on (input_error inj func).
Proof.
  intros Hf w. unfold input_error. specialize (Hf w).
  destruct (func w) as [[a | []] w1]; simpl in *; exact Hf.
Qed.

Create HintDb reads discriminated.
#[local] Hint Resolve reads_on_ret reads_on_raise reads_on_lift reads_on_get
  reads_on_print reads_on_input reads_on_on_book reads_on_on_record
  reads_on_on_local : reads.

Ltac reads_step :=
  match goal with
  | |- reads_on (handler _) => apply reads_on_input_error
  | |- reads_on (input_error _ _) => apply reads_on_input_error
  | |- reads_on (bind _ _) => apply reads_on_bind; [|intros ?]
  | |- reads_on (for_each _ _) => apply reads_on_for_each; intros ?
  | |- reads_on (except_KeyError _ _) => apply reads_on_except
  | |- reads_on (match ?x with _ => _ end) => destruct x
  | |- reads_on (if ?b then _ else _) => destruct b
  | |- reads_on _ => solve [auto with reads]
  end.

Lemma reads_on_add_contact (args : list string) : reads_on (add_contact args).
Proof. unfold add_contact. repeat reads_step. Qed.

Lemma reads_on_change_contact (args : list string) :
  reads_on (change_contact args).
Proof. unfold change_contact. repeat reads_step. Qed.

Lemma reads_on_show_phone (args : list string) : reads_on (show_phone args).
Proof. unfold show_phone. repeat reads_step. Qed.

Lemma reads_on_show_all_contacts : reads_on show_all_contacts.
Proof. unfold show_all_contacts. repeat reads_step. Qed.

Lemma reads_on_process_input (command : string) (args : list string) :
  reads_on (process_input command args).
Proof.
  unfold process_input.
  repeat first
    [ apply reads_on_add_contact | apply reads_on_change_contact
    | apply reads_on_show_phone | apply reads_on_show_all_contacts
    | reads_step ].
Qed.

(** The loop ends by itself, with [break] or an exception, when it may run
    once more than there are lines to read. *)
Lemma main_loop_enough_fuel (fuel : nat) (w : World) :
  List.length (stdin w) < fuel ->
  fst (main_loop fuel w) <> Return OutOfFuel.
Proof.
  revert w. induction fuel as [|fuel IH]; intros w Hlen; [lia|].
  simpl. unfold bind at 1. unfold input.
  destruct w as [book sin sout]. simpl in *.
  destruct sin as [|line rest]; simpl; [discriminate|].
  unfold bind at 1. unfold lift.
  destruct (parse_input line) as [[command args] | e]; [|discriminate].
  destruct ((command =? "close") || (command =? "exit")); [discriminate|].
  unfold bind at 1.
  set (w1 := {| address_book := book; stdin := rest; stdout := _ |}).
  pose proof (reads_on_process_input command args w1) as Hreads.
  destruct (process_input command args w1) as [[reply | e] w2];
    [|discriminate].
  unfold bind at 1. unfold print at 1, modify.
  apply IH. simpl in *. lia.
Qed.

Lemma main_enough_fuel (lines : list string) (w : World) :
  stdin w = lines ->
  fst (main_loop (S (List.length lines)) w) <> Return OutOfFuel.
Proof. intros <-. apply main_loop_enough_fuel. lia. Qed.

(** A session of the program: a contact is added, shown and listed, and
    [close] ends the loop; the line after [close] is not read. *)
Example main_session :
  main ["add john 1234567890"; "phone john"; "all"; "phone unknown";
        "close"; "hello"]
  = (Return None,
     {| address_book :=
          [("john", {| name := mkName "john";
                       phones := [mkPhone "1234567890"] |})];
        stdin := ["hello"];
        stdout :=
          [Printed "Welcome to the assistant bot!";
           Prompt "Enter a command: "; Printed "Contact added.";
           Prompt "Enter a command: ";
           Printed "The phone number for contact 'john' is: 1234567890.";
           Prompt "Enter a command: ";
           Printed "Contact name: john, phone: 1234567890";
           Prompt "Enter a command: ";
           Printed "Contact 'unknown' not found.";
           Prompt "Enter a command: "; Printed "Good bye!"] |}).
Proof. vm_compute. reflexivity. Qed.

(** C3, the code at the failing input: when the first line is empty,
    [parse_input] raises [IndexError] outside every handler; the decorator
    of [main] catches it, so [main] returns its message without printing
    it, and the loop has ended although no [close] or [exit] was read: the
    lines after the empty one stay unread. *)
Theorem main_stops_on_empty_line (lines : list string) :
  main ("" :: lines)
  = (Return (Some "Enter the argument for the command."),
     {| address_book := [];
        stdin := lines;
        stdout := [Printed "Welcome to the assistant bot!";
                   Prompt "Enter a command: "] |}).
Proof. reflexivity. Qed.

(** * Further properties of the code *)

(** ** Record: phones *)

Lemma find_phone_In (phone : string) (l : list Phone) :
  match find (fun p => String.eqb (phone_value p) phone) l with
  | Some p => phone_value p = phone /\ In phone (map phone_value l)
  | None => ~ In phone (map phone_value l)
  end.
Proof.
  pose proof (find_then_remove phone l) as H.
  destruct (find _ l) as [p|].
  - destruct H as (l1 & l2 & -> & Hp & _). split; [exact Hp|].
    rewrite map_app. apply in_or_app. right. now left.
  - intros Hin. apply in_map_iff in Hin as (q & Hq & Hin).
    now apply (H q Hin).
Qed.

(** [find_phone(phone)] returns [phone] exactly when it is among the values
    [find_phone()] lists, and raises the not-found error exactly when it is
    not. *)
Theorem Record_find_phone_spec (phone : string) (r : RecordObj) :
  (Record_find_phone phone r = Return phone
   <-> In phone (Record_find_phone_all r))
  /\ (Record_find_phone phone r = Raise (ValueError Phone_not_found)
      <-> ~ In phone (Record_find_phone_all r)).
Proof.
  unfold Record_find_phone, Record_find_phone_all.
  pose proof (find_phone_In phone (phones r)) as H.
  destruct (find _ (phones r)) as [p|].
  - destruct H as [-> Hin]. split; split; trivial; try discriminate.
    intros Hn. now elim Hn.
  - split; split; trivial; try discriminate. intros Hin. now elim H.
Qed.

(** A valid phone is appended after the phones the record has, whether it
    is already among them or not; the name stays, and [find_phone] then
    finds the phone. *)
Theorem Record_add_then_find (phone : string) (r : RecordObj) :
  ten_digits phone = true ->
  exists r',
    Record_add_phone phone r = (Return tt, r')
    /\ phones r' = (phones r ++ [mkPhone phone])%list
    /\ name r' = name r
    /\ Record_find_phone phone r' = Return phone.
Proof.
  intros Hok. exists (set_phones (phones r ++ [mkPhone phone]) r).
  rewrite (Record_add_phone_valid _ _ Hok). repeat split.
  unfold Record_find_phone. simpl.
  pose proof (find_phone_In phone (phones r ++ [mkPhone phone])) as H.
  destruct (find _ (phones r ++ [mkPhone phone])%list) as [p|].
  - now destruct H as [-> _].
  - elim H. rewrite map_app. apply in_or_app. right. now left.
Qed.

Lemma Record_add_then_find_witness :
  exists r',
    Record_add_phone "1234567890" record_one_phone = (Return tt, r')
    /\ phones r' = (phones record_one_phone ++ [mkPhone "1234567890"])%list
    /\ name r' = name record_one_phone
    /\ Record_find_phone "1234567890" r' = Return "1234567890".
Proof.
  apply (Record_add_then_find "1234567890" record_one_phone). reflexivity.
Defined.

(** [edit_phone(old, new)] puts [new], whatever string it is, in the place
    of the first phone whose value is [old]: the other phones, their order,
    the number of phones and the name stay, and [find_phone(new)] then
    succeeds.  Without such a phone it raises and changes nothing. *)
Theorem Record_edit_phone_spec (r : RecordObj) (old_phone new_phone : string) :
  (In old_phone (Record_find_phone_all r) ->
   exists l1 p l2,
     phones r = (l1 ++ p :: l2)%list
     /\ phone_value p = old_phone
     /\ ~ In old_phone (map phone_value l1)
     /\ Record_edit_phone old_phone new_phone r
        = (Return tt,
           {| name := name r;
              phones := (l1 ++ mkPhone new_phone :: l2)%list |})
     /\ Record_find_phone new_phone
          {| name := name r; phones := (l1 ++ mkPhone new_phone :: l2)%list |}
        = Return new_phone)
  /\ (~ In old_phone (Record_find_phone_all r) ->
      Record_edit_phone old_phone new_phone r
      = (Raise (ValueError Phone_not_found), r)).
Proof.
  unfold Record_find_phone_all.
  destruct (Record_edit_phone_cut r old_phone new_phone)
    as [(l1 & p & l2 & Hl & Hp & Hl1 & Hrun) | [Hnone Hrun]]; split.
  - intros _. exists l1, p, l2. repeat split; trivial.
    + intros Hin. apply in_map_iff in Hin as (q & Hq & Hin).
      now apply (Hl1 q Hin).
    + unfold Record_find_phone. simpl.
      pose proof (find_phone_In new_phone (l1 ++ mkPhone new_phone :: l2))
        as H.
      destruct (find _ (l1 ++ mkPhone new_phone :: l2)%list) as [q|].
      * now destruct H as [-> _].
      * elim H. rewrite map_app. apply in_or_app. right. now left.
  - intros Hn. elim Hn. rewrite Hl, map_app. apply in_or_app. right.
    left. exact Hp.
  - intros Hin. apply in_map_iff in Hin as (q & Hq & Hin).
    now elim (Hnone q Hin).
  - intros _. exact Hrun.
Qed.

Lemma run_op_name (op : record_op) (r : RecordObj) :
  name (snd (run_op op r)) = name r.
Proof.
  destruct op as [phone | phone]; simpl.
  - unfold Record_add_phone, bind, lift, modify.
    now destruct (Phone_init phone).
  - unfold Record_remove_phone. now destruct (find _ (phones r)).
Qed.

(** Whatever calls of [add_phone] and [remove_phone] are made on a record
    whose phones are valid, successful or not, its phones stay strings of
    ten digits and its name stays. *)
Theorem Record_add_remove_invariant (ops : list record_op) (r : RecordObj) :
  Forall phone_ok (phones r) ->
  Forall phone_ok (phones (run_ops ops r)) /\ name (run_ops ops r) = name r.
Proof.
  revert r. induction ops as [|op ops IH]; intros r H; simpl; [now split|].
  destruct (IH (snd (run_op op r))) as [Hok Hname].
  - destruct op as [phone | phone]; simpl.
    + now apply Record_add_phone_ok.
    + now apply Record_remove_phone_ok.
  - split; [exact Hok|]. now rewrite Hname, run_op_name.
Qed.

Lemma Record_add_remove_invariant_witness :
  Forall phone_ok
    (phones (run_ops [OpAdd "5555555555"; OpAdd "12"; OpRemove "1234567890";
                      OpRemove "0000000000"] record_john))
  /\ name (run_ops [OpAdd "5555555555"; OpAdd "12"; OpRemove "1234567890";
                    OpRemove "0000000000"] record_john)
     = name record_john.
Proof.
  apply (Record_add_remove_invariant
           [OpAdd "5555555555"; OpAdd "12"; OpRemove "1234567890";
            OpRemove "0000000000"] record_john).
  repeat constructor.
Defined.

(** ** Record: the name *)

Lemma char_lower_twice (c : ascii) : char_lower (char_lower c) = char_lower c.
Proof. each_char c; reflexivity. Qed.

Lemma str_lower_twice (s : string) : str_lower (str_lower s) = str_lower s.
Proof.
  unfold str_lower. induction s as [|c s IH]; simpl; [reflexivity|].
  now rewrite char_lower_twice, IH.
Qed.

(** A record made by [Record(raw)] has no phones and a valid stored name:
    the lower-cased [raw], alphabetic and not empty; and that stored name,
    given to [Record] again, makes the same record. *)
Theorem Record_init_name (raw : string) (r : RecordObj) :
  Record_init raw = Return r ->
  phones r = []
  /\ name_value (name r) = str_lower raw
  /\ name_ok (name_value (name r))
  /\ Record_init (name_value (name r)) = Return r.
Proof.
  unfold Record_init, Name_init.
  destruct (str_isalpha (str_lower raw)) eqn:E; simpl; [|discriminate].
  intros [= <-]. simpl. repeat split; trivial.
  - apply str_lower_twice.
  - now rewrite str_lower_twice, E.
Qed.

Lemma Record_init_name_witness :
  phones record_bob = []
  /\ name_value (name record_bob) = str_lower "Bob"
  /\ name_ok (name_value (name record_bob))
  /\ Record_init (name_value (name record_bob)) = Return record_bob.
Proof. apply (Record_init_name "Bob" record_bob). reflexivity. Defined.

(** ** AddressBook: overwriting and deleting *)

Lemma dict_remove_absent {V} (k : string) (d : dict V) :
  dict_get k d = None -> dict_remove k d = d.
Proof.
  induction d as [|[k' v'] d IH]; simpl; [reflexivity|].
  destruct (String.eqb k' k); [discriminate|]. intros H. now rewrite (IH H).
Qed.

Lemma dict_remove_set_new {V} (k : string) (v : V) (d : dict V) :
  dict_get k d = None -> dict_remove k (dict_set k v d) = d.
Proof.
  induction d as [|[k' v'] d IH]; simpl.
  - now rewrite String.eqb_refl.
  - destruct (String.eqb k' k) eqn:E; [discriminate|]. intros H. simpl.
    now rewrite E, (IH H).
Qed.

Lemma dict_get_remove_other {V} (k k' : string) (d : dict V) :
  k' <> k -> dict_get k' (dict_remove k d) = dict_get k' d.
Proof.
  intros Hne. induction d as [|[k0 v0] d IH]; simpl; [reflexivity|].
  destruct (String.eqb k0 k) eqn:E; simpl.
  - apply String.eqb_eq in E. subst k0.
    assert (E' : String.eqb k k' = false)
      by (rewrite String.eqb_sym; now apply String.eqb_neq).
    now rewrite E'.
  - now rewrite IH.
Qed.

(** [add_record] of a record whose name is already a key replaces the
    stored record without an error: the second record is the one found,
    the keys and their order are those after the first [add_record], and
    the book is the one the second [add_record] alone would have made. *)
Theorem AddressBook_add_record_overwrites (book : AddressBook)
    (r1 r2 : RecordObj) :
  name r1 = name r2 ->
  let book1 := snd (AddressBook_add_record r1 book) in
  let book2 := snd (AddressBook_add_record r2 book1) in
  AddressBook_find (name_value (name r2)) book2 = Some r2
  /\ map fst book2 = map fst book1
  /\ book2 = snd (AddressBook_add_record r2 book).
Proof.
  intros Hname. unfold AddressBook_add_record, AddressBook_find, modify.
  simpl. rewrite Hname. repeat split.
  - apply dict_get_set_same.
  - apply dict_set_keys. now rewrite dict_get_set_same.
  - apply dict_set_set.
Qed.

Lemma AddressBook_add_record_overwrites_witness :
  let book1 := snd (AddressBook_add_record record_bob []) in
  let book2 := snd (AddressBook_add_record record_one_phone book1) in
  AddressBook_find (name_value (name record_one_phone)) book2
  = Some record_one_phone
  /\ map fst book2 = map fst book1
  /\ book2 = snd (AddressBook_add_record record_one_phone []).
Proof.
  apply (AddressBook_add_record_overwrites [] record_bob record_one_phone).
  reflexivity.
Defined.

(** Adding a record under a name that is not in the book and deleting that
    name gives back the book as it was, entry for entry. *)
Theorem AddressBook_add_delete_restores (book : AddressBook) (r : RecordObj) :
  AddressBook_find (name_value (name r)) book = None ->
  AddressBook_delete (name_value (name r))
    (snd (AddressBook_add_record r book))
  = (Return tt, book).
Proof.
  unfold AddressBook_find, AddressBook_delete, AddressBook_add_record, modify.
  simpl. intros H. rewrite dict_get_set_same. now rewrite dict_remove_set_new.
Qed.

Lemma AddressBook_add_delete_restores_witness :
  AddressBook_delete (name_value (name record_bob))
    (snd (AddressBook_add_record record_bob (address_book world_john)))
  = (Return tt, address_book world_john).
Proof.
  apply (AddressBook_add_delete_restores (address_book world_john) record_bob).
  reflexivity.
Defined.

(** [delete(nm)], whether it succeeds or raises, changes no lookup of
    another name. *)
Theorem AddressBook_delete_frame (nm other : string) (book : AddressBook) :
  other <> nm ->
  AddressBook_find other (snd (AddressBook_delete nm book))
  = AddressBook_find other book.
Proof.
  intros Hne. unfold AddressBook_delete, AddressBook_find.
  destruct (dict_get nm book); simpl; [|reflexivity].
  now apply dict_get_remove_other.
Qed.

Lemma AddressBook_delete_frame_witness :
  AddressBook_find "john" (snd (AddressBook_delete "bob"
                                  (("bob", record_bob)
                                   :: address_book world_john)))
  = AddressBook_find "john" (("bob", record_bob) :: address_book world_john).
Proof.
  apply (AddressBook_delete_frame "bob" "john"
           (("bob", record_bob) :: address_book world_john)).
  discriminate.
Defined.

(** ** The decorator *)

(** A decorated function never raises; the state is the one the function
    left; and decorating twice, as [process_input] does with every handler,
    is the same as decorating once. *)
Theorem input_error_absorbs {S A} (inj : string -> A) (func : M S A) (s : S) :
  (exists a, fst (input_error inj func s) = Return a)
  /\ snd (input_error inj func s) = snd (func s)
  /\ input_error inj (input_error inj func) s = input_error inj func s.
Proof.
  unfold input_error. destruct (func s) as [[a | []] s']; simpl; eauto.
Qed.

(** ** Parsing a line *)

Lemma str_all_app (p : ascii -> bool) (a b : string) :
  str_all p (a ++ b) = str_all p a && str_all p b.
Proof.
  induction a as [|c a IH]; simpl; [reflexivity|].
  now rewrite IH, andb_assoc.
Qed.

Lemma str_nonempty_app_char (a : string) (c : ascii) :
  str_nonempty (a ++ String c "") = true.
Proof. now destruct a. Qed.

Lemma split_from_tokens (cur s : string) :
  str_all no_space cur = true -> Forall token (split_from cur s).
Proof.
  revert cur. induction s as [|c s IH]; intros cur Hcur; simpl.
  - destruct (str_nonempty cur) eqn:E; repeat constructor; trivial.
  - destruct (char_isspace c) eqn:Ec.
    + destruct (str_nonempty cur) eqn:E.
      * constructor; [now split | now apply IH].
      * now apply IH.
    + apply IH. rewrite str_all_app, Hcur. simpl. unfold no_space.
      now rewrite Ec.
Qed.

Lemma split_from_nil (cur s : string) :
  split_from cur s = [] <-> cur = "" /\ str_all char_isspace s = true.
Proof.
  revert cur. induction s as [|c s IH]; intros cur; simpl.
  - destruct cur; simpl; split; easy.
  - destruct (char_isspace c) eqn:Ec; simpl.
    + destruct cur as [|d cur]; simpl.
      * rewrite IH. tauto.
      * split; [discriminate | now intros [? _]].
    + rewrite IH. split; [|now intros [_ ?]].
      intros [H _]. now destruct cur.
Qed.

Lemma str_rstrip_token (t : string) :
  str_all no_space t = true -> str_rstrip t = t.
Proof.
  induction t as [|c t IH]; simpl; [reflexivity|].
  intros H. apply andb_true_iff in H as [Hc Ht]. rewrite (IH Ht).
  unfold no_space in Hc. apply negb_true_iff in Hc. rewrite Hc.
  now destruct t.
Qed.

Lemma str_strip_token (t : string) : token t -> str_strip t = t.
Proof.
  intros [_ Ht]. unfold str_strip.
  assert (E : str_lstrip t = t).
  { destruct t as [|c t]; [reflexivity|]. simpl in *.
    apply andb_true_iff in Ht as [Hc _]. unfold no_space in Hc.
    apply negb_true_iff in Hc. now rewrite Hc. }
  rewrite E. now apply str_rstrip_token.
Qed.

Lemma char_lower_isspace (c : ascii) :
  char_isspace (char_lower c) = char_isspace c.
Proof. each_char c; reflexivity. Qed.

Lemma str_lower_token (t : string) : token t -> token (str_lower t).
Proof.
  intros [Hne Ht]. split; [now rewrite str_nonempty_lower|].
  clear Hne. induction t as [|c t IH]; simpl in *; [reflexivity|].
  apply andb_true_iff in Ht as [Hc Ht]. unfold no_space in *.
  rewrite char_lower_isspace, Hc. now apply IH.
Qed.

(** [parse_input] raises [IndexError] exactly on the lines that are empty
    or all white space.  Otherwise the command is the lower-cased first
    word of the line ([strip] changes nothing in it), the arguments are the
    other words, unchanged and in order, and no word is empty or holds
    white space. *)
Theorem parse_input_spec (line : string) :
  (parse_input line = Raise IndexError
   <-> str_all char_isspace line = true)
  /\ (forall cmd args,
        parse_input line = Return (cmd, args) ->
        exists first,
          str_split line = first :: args
          /\ cmd = str_lower first
          /\ str_lower cmd = cmd
          /\ token cmd
          /\ Forall token args).
Proof.
  unfold parse_input, str_split.
  pose proof (split_from_tokens "" line eq_refl) as Htok.
  pose proof (split_from_nil "" line) as Hnil.
  destruct (split_from "" line) as [|first rest]; split.
  - split; [intros _; now apply Hnil | reflexivity].
  - discriminate.
  - split; [discriminate|]. intros H.
    destruct Hnil as [_ Hnil]. now discriminate Hnil.
  - intros cmd args [= <- <-]. inversion Htok as [|? ? Hfirst Hrest]; subst.
    exists first. rewrite (str_strip_token _ Hfirst).
    pose proof (str_lower_token _ Hfirst) as [Hne Hns].
    repeat split; trivial. apply str_lower_twice.
Qed.

(** ** Commands that only read *)

Lemma input_error_state {S A} (inj : string -> A) (func : M S A) (s : S) :
  snd (input_error inj func s) = snd (func s).
Proof. unfold input_error. now destruct (func s) as [[a | []] s']. Qed.

Lemma show_phone_state (args : list string) (w : World) :
  snd (show_phone args w) = w.
Proof.
  unfold show_phone, handler. rewrite input_error_state.
  destruct args as [|nm args]; [reflexivity|].
  unfold bind, get.
  destruct (AddressBook_find nm (address_book w)) as [r|]; [|reflexivity].
  now destruct (Nat.eqb _ 1).
Qed.

Lemma show_all_contacts_state (w : World) : snd (show_all_contacts w) = w.
Proof.
  unfold show_all_contacts, handler. rewrite input_error_state.
  unfold bind, get. now destruct (address_book w).
Qed.

(** Every command but [add] and [change] leaves the book, the input and
    the output as they are: [hello], [phone], [all] and every unknown
    command only compute a reply.  The reply to a command that is none of
    the five is ["Invalid command."], whatever the arguments. *)
Theorem process_input_read_only (command : string) (args : list string)
    (w : World) :
  command <> "add" -> command <> "change" ->
  snd (process_input command args w) = w
  /\ (command <> "hello" -> command <> "phone" -> command <> "all" ->
      fst (process_input command args w) = Return "Invalid command.").
Proof.
  intros Hadd Hchange. apply String.eqb_neq in Hadd, Hchange.
  unfold process_input, handler. rewrite input_error_state.
  unfold input_error. rewrite Hadd, Hchange.
  destruct (command =? "hello") eqn:E1; [split; [reflexivity|]|].
  { intros H. apply String.eqb_eq in E1. contradiction. }
  destruct (command =? "phone") eqn:E2.
  { split; [apply show_phone_state|]. intros _ H.
    apply String.eqb_eq in E2. contradiction. }
  destruct (command =? "all") eqn:E3.
  { split; [apply show_all_contacts_state|]. intros _ _ H.
    apply String.eqb_eq in E3. contradiction. }
  split; reflexivity.
Qed.

Lemma process_input_read_only_witness :
  snd (process_input "phone" ["john"; "x"] world_john) = world_john
  /\ fst (process_input "delete" ["john"] world_john)
     = Return "Invalid command.".
Proof.
  split.
  - apply (process_input_read_only "phone" ["john"; "x"] world_john);
      discriminate.
  - apply (process_input_read_only "delete" ["john"] world_john);
      discriminate.
Defined.

(** ** [add] with valid phones *)

Lemma for_each_add_phone_local_ok (l : list string) (r : RecordObj) :
  Forall (fun g => ten_digits g = true) l ->
  for_each l Record_add_phone r
  = (Return tt, set_phones (phones r ++ map mkPhone l) r).
Proof.
  intros Hl. revert r.
  induction Hl as [|g l Hg _ IH]; intros r; simpl.
  - unfold ret. now rewrite app_nil_r, set_phones_same.
  - unfold bind. rewrite (Record_add_phone_valid _ _ Hg), IH. simpl.
    now rewrite <- app_assoc.
Qed.

Lemma for_each_add_phone_book_ok (nm : string) (l : list string) (w : World)
    (r : RecordObj) :
  AddressBook_find nm (address_book w) = Some r ->
  Forall (fun g => ten_digits g = true) l ->
  for_each l (fun phone => on_record nm (Record_add_phone phone)) w
  = (Return tt,
     set_book
       (dict_set nm (set_phones (phones r ++ map mkPhone l) r)
          (address_book w)) w).
Proof.
  intros Hfind Hl. revert w r Hfind.
  induction Hl as [|g l Hg _ IH]; intros w r Hfind; simpl.
  - unfold ret. rewrite app_nil_r, set_phones_same.
    unfold AddressBook_find in Hfind.
    now rewrite (dict_set_same_value _ _ _ Hfind), set_book_same.
  - unfold bind. rewrite (on_record_found _ _ _ _ Hfind).
    rewrite (Record_add_phone_valid _ _ Hg). simpl.
    erewrite IH
      by (cbn [address_book set_book]; unfold AddressBook_find;
          apply dict_get_set_same).
    cbn [address_book set_book phones set_phones name].
    rewrite dict_set_set. unfold set_book, set_phones. simpl.
    now rewrite <- app_assoc.
Qed.

Lemma add_contact_existing (w : World) (nm phone : string)
    (more : list string) (r : RecordObj) :
  AddressBook_find nm (address_book w) = Some r ->
  Forall (fun g => ten_digits g = true) (phone :: more) ->
  add_contact (nm :: phone :: more) w
  = (Return ("Phone number(s) added to contact '" ++ nm ++ "'."),
     set_book
       (dict_set nm (set_phones (phones r ++ map mkPhone (phone :: more)) r)
          (address_book w)) w).
Proof.
  intros Hfind Hok. unfold add_contact, handler, input_error.
  unfold bind at 1. unfold get at 1. rewrite Hfind. unfold bind at 1.
  now rewrite (for_each_add_phone_book_ok nm _ w r Hfind Hok).
Qed.

Lemma add_contact_new (w : World) (nm phone : string) (more : list string) :
  AddressBook_find nm (address_book w) = None ->
  Forall (fun g => ten_digits g = true) (phone :: more) ->
  add_contact (nm :: phone :: more) w
  = if str_isalpha (str_lower nm)
    then (Return "Contact added.",
          set_book
            (dict_set (str_lower nm)
               {| name := mkName (str_lower nm);
                  phones := map mkPhone (phone :: more) |}
               (address_book w)) w)
    else (Return Name_error, w).
Proof.
  intros Hfind Hok. unfold add_contact, handler, input_error.
  unfold bind at 1. unfold get at 1. rewrite Hfind.
  unfold bind at 1. unfold lift at 1, Record_init, Name_init.
  destruct (str_isalpha (str_lower nm)); cbn [negb]; [|reflexivity].
  unfold bind at 1. unfold on_local.
  rewrite (for_each_add_phone_local_ok _ _ Hok). reflexivity.
Qed.

(** [add <name> <phones>] with at least one phone, all of them valid.  If
    a record is stored under the name as typed, the phones are appended to
    it in order.  If not, and the name is valid, a record with the
    lower-cased name and just these phones is stored under the lower-cased
    name, in place of the record stored there if there is one; if the name
    is not valid, the answer is the error of the name and nothing
    changes. *)
Theorem add_contact_valid (w : World) (nm phone : string)
    (more : list string) :
  Forall (fun g => ten_digits g = true) (phone :: more) ->
  add_contact (nm :: phone :: more) w
  = match AddressBook_find nm (address_book w) with
    | Some r =>
        (Return ("Phone number(s) added to contact '" ++ nm ++ "'."),
         set_book
           (dict_set nm
              (set_phones (phones r ++ map mkPhone (phone :: more)) r)
              (address_book w)) w)
    | None =>
        if str_isalpha (str_lower nm)
        then (Return "Contact added.",
              set_book
                (dict_set (str_lower nm)
                   {| name := mkName (str_lower nm);
                      phones := map mkPhone (phone :: more) |}
                   (address_book w)) w)
        else (Return Name_error, w)
    end.
Proof.
  intros Hok.
  destruct (AddressBook_find nm (address_book w)) as [r|] eqn:Hfind.
  - now apply add_contact_existing.
  - now apply add_contact_new.
Qed.

Lemma add_contact_valid_witness :
  add_contact ["Bob"; "1234567890"; "1234567890"] world_john
  = (Return "Contact added.",
     set_book
       (dict_set "bob"
          {| name := mkName "bob";
             phones := map mkPhone ["1234567890"; "1234567890"] |}
          (address_book world_john)) world_john).
Proof.
  apply (add_contact_valid world_john "Bob" "1234567890" ["1234567890"]).
  repeat constructor.
Defined.

(** [add] with no argument or with a name alone answers with the usage
    message and changes nothing. *)
Theorem add_contact_too_few (args : list string) (w : World) :
  List.length args < 2 ->
  add_contact args w
  = (Return "Give me name and at least one phone number, separated by spaces.",
     w).
Proof.
  intros H. destruct args as [|nm [|phone more]]; simpl in H;
    [reflexivity | reflexivity | lia].
Qed.

Lemma add_contact_too_few_witness :
  add_contact ["john"] world_john
  = (Return "Give me name and at least one phone number, separated by spaces.",
     world_john).
Proof. apply (add_contact_too_few ["john"] world_john). simpl. lia. Defined.

(** ** [change] *)

(** [change] on a stored contact, up to the point where it asks. *)
Lemma change_contact_found (w : World) (nm new_phone : string)
    (r : RecordObj) :
  AddressBook_find nm (address_book w) = Some r ->
  change_contact [nm; new_phone] w
  = handler
      (except_KeyError
         (chosen_phone <-
            input "Enter the number of the phone you want to change: " ;;
          phone <-
            lift (dict_item chosen_phone (enumerate_phones (phones r))) ;;
          on_record nm (Record_remove_phone (phone_value phone)) ;;
          on_record nm (Record_add_phone new_phone) ;;
          ret "Contact updated.")
         (ret "Invalid phone number. Please enter a valid number."))
      (writes
         (Printed ("Available phone numbers for contact " ++ nm ++ ":")
          :: map (fun kv => Printed (fst kv ++ ": " ++ phone_value (snd kv)))
               (enumerate_phones (phones r))) w).
Proof.
  intros Hfind. unfold change_contact, handler, input_error.
  unfold bind at 1.
  rewrite (on_record_found nm _ _ r Hfind).
  cbn [fst snd get ret bind].
  rewrite (dict_set_same_value _ _ _ Hfind), set_book_same.
  unfold bind at 1. unfold print at 1. unfold modify at 1.
  unfold bind at 1.
  rewrite (for_each_print _ (fun kv => fst kv ++ ": " ++ phone_value (snd kv)))
    by (now intros [k v]).
  unfold writes, write. cbn [address_book stdin stdout].
  now rewrite <- app_assoc.
Qed.

Lemma enumerate_phones_keys (l : list Phone) :
  map fst (enumerate_phones l) = map str_of_nat (seq 0 (List.length l)).
Proof.
  unfold enumerate_phones. generalize 0.
  induction l as [|p l IH]; intros a; simpl; [reflexivity|].
  now rewrite IH.
Qed.

Lemma dict_get_enumerate_other (l : list Phone) (chosen : string) :
  (forall i, i < List.length l -> chosen <> str_of_nat i) ->
  dict_get chosen (enumerate_phones l) = None.
Proof.
  intros H. apply dict_get_None. rewrite enumerate_phones_keys.
  intros Hin. apply in_map_iff in Hin as (i & Hi & Hin).
  apply in_seq in Hin. apply (H i); [lia | now symmetry].
Qed.

(** [change <name> <new>] when the contact is stored, the line read is the
    number of one of its phones and [new] is valid: the first phone with
    the value of the chosen one is taken out and [new] is appended after
    the remaining phones (it does not take the place of the old one); the
    answer is ["Contact updated."] and one line of input is used. *)
Theorem change_contact_valid (w : World) (nm new_phone : string)
    (r : RecordObj) (i : nat) (p : Phone) (rest : list string) :
  AddressBook_find nm (address_book w) = Some r ->
  nth_error (phones r) i = Some p ->
  stdin w = str_of_nat i :: rest ->
  ten_digits new_phone = true ->
  exists l1 q l2,
    phones r = (l1 ++ q :: l2)%list
    /\ phone_value q = phone_value p
    /\ (forall q', In q' l1 -> phone_value q' <> phone_value p)
    /\ change_contact [nm; new_phone] w
       = (Return "Contact updated.",
          {| address_book :=
               dict_set nm
                 (set_phones ((l1 ++ l2) ++ [mkPhone new_phone]) r)
                 (address_book w);
             stdin := rest;
             stdout := (stdout w ++ change_dialogue nm (phones r))%list |}).
Proof.
  intros Hfind Hnth Hin Hok.
  destruct (Record_remove_phone_cut r (phone_value p))
    as [(l1 & q & l2 & Hl & Hq & Hl1 & Hrem) | [Hnone _]].
  2:{ exfalso. apply (Hnone p); [|reflexivity].
      now apply nth_error_In with i. }
  exists l1, q, l2. repeat split; trivial.
  rewrite (change_contact_found _ _ _ _ Hfind).
  unfold handler, input_error, except_KeyError. unfold bind at 1.
  unfold input. cbn [stdin stdout address_book write writes]. rewrite Hin.
  unfold bind at 1. unfold lift at 1. unfold dict_item.
  rewrite dict_get_enumerate, Hnth.
  unfold bind at 1.
  erewrite on_record_found by (cbn [address_book]; exact Hfind).
  rewrite Hrem. cbn [fst snd address_book set_book stdin stdout].
  unfold bind at 1.
  erewrite on_record_found
    by (cbn [address_book]; unfold AddressBook_find; apply dict_get_set_same).
  rewrite (Record_add_phone_valid _ _ Hok).
  cbn [fst snd address_book set_book stdin stdout phones set_phones].
  rewrite dict_set_set. unfold change_dialogue, ret, set_phones.
  cbn [name phones].
  now rewrite <- !app_assoc.
Qed.

Lemma change_contact_valid_witness :
  exists l1 q l2,
    phones record_john = (l1 ++ q :: l2)%list
    /\ phone_value q = "1234567890"
    /\ (forall q', In q' l1 -> phone_value q' <> "1234567890")
    /\ change_contact ["john"; "5555555555"]
         {| address_book := [("john", record_john)]; stdin := ["0"; "all"];
            stdout := [] |}
       = (Return "Contact updated.",
          {| address_book :=
               dict_set "john"
                 (set_phones ((l1 ++ l2) ++ [mkPhone "5555555555"])
                    record_john)
                 [("john", record_john)];
             stdin := ["all"];
             stdout := ([] ++ change_dialogue "john" (phones record_john))%list
          |}).
Proof.
  apply (change_contact_valid
           {| address_book := [("john", record_john)]; stdin := ["0"; "all"];
              stdout := [] |}
           "john" "5555555555" record_john 0 (mkPhone "1234567890") ["all"]);
    reflexivity.
Defined.

(** [change] when the contact is stored and the line read is not the
    number of one of its phones (not a number, out of range, or written
    with spaces or leading zeros): the answer asks for a valid number, the
    book is unchanged and the line is used up. *)
Theorem change_contact_bad_choice (w : World) (nm new_phone chosen : string)
    (r : RecordObj) (rest : list string) :
  AddressBook_find nm (address_book w) = Some r ->
  stdin w = chosen :: rest ->
  (forall i, i < List.length (phones r) -> chosen <> str_of_nat i) ->
  change_contact [nm; new_phone] w
  = (Return "Invalid phone number. Please enter a valid number.",
     {| address_book := address_book w;
        stdin := rest;
        stdout := (stdout w ++ change_dialogue nm (phones r))%list |}).
Proof.
  intros Hfind Hin Hbad.
  rewrite (change_contact_found _ _ _ _ Hfind).
  unfold handler, input_error, except_KeyError. unfold bind at 1.
  unfold input. cbn [stdin stdout address_book write writes]. rewrite Hin.
  unfold bind at 1. unfold lift at 1. unfold dict_item.
  rewrite (dict_get_enumerate_other _ _ Hbad).
  unfold ret, change_dialogue. now rewrite <- !app_assoc.
Qed.

Lemma change_contact_bad_choice_witness :
  change_contact ["john"; "5555555555"]
    {| address_book := [("john", record_john)]; stdin := ["01"; "all"];
       stdout := [] |}
  = (Return "Invalid phone number. Please enter a valid number.",
     {| address_book := [("john", record_john)];
        stdin := ["all"];
        stdout := ([] ++ change_dialogue "john" (phones record_john))%list |}).
Proof.
  apply (change_contact_bad_choice
           {| address_book := [("john", record_john)]; stdin := ["01"; "all"];
              stdout := [] |}
           "john" "5555555555" "01" record_john ["all"]).
  - reflexivity.
  - reflexivity.
  - intros i Hi. simpl in Hi.
    destruct i as [|[|i]]; [discriminate | discriminate | lia].
Defined.

(** [change] when the contact is stored and the input is at its end: the
    [EOFError] of [input] is not a [KeyError], reaches the decorator and
    becomes ["Invalid command."]; the book is unchanged. *)
Theorem change_contact_end_of_input (w : World) (nm new_phone : string)
    (r : RecordObj) :
  AddressBook_find nm (address_book w) = Some r ->
  stdin w = [] ->
  change_contact [nm; new_phone] w
  = (Return "Invalid command.",
     {| address_book := address_book w;
        stdin := [];
        stdout := (stdout w ++ change_dialogue nm (phones r))%list |}).
Proof.
  intros Hfind Hin.
  rewrite (change_contact_found _ _ _ _ Hfind).
  unfold handler, input_error, except_KeyError. unfold bind at 1.
  unfold input. cbn [stdin stdout address_book write writes]. rewrite Hin.
  cbv beta iota. unfold change_dialogue, write, writes.
  cbn [address_book stdin stdout]. now rewrite Hin, <- !app_assoc.
Qed.

Lemma change_contact_end_of_input_witness :
  change_contact ["john"; "5555555555"]
    {| address_book := [("john", record_john)]; stdin := []; stdout := [] |}
  = (Return "Invalid command.",
     {| address_book := [("john", record_john)];
        stdin := [];
        stdout := ([] ++ change_dialogue "john" (phones record_john))%list |}).
Proof.
  apply (change_contact_end_of_input
           {| address_book := [("john", record_john)]; stdin := [];
              stdout := [] |}
           "john" "5555555555" record_john); reflexivity.
Defined.

(** [change] with fewer or more than two arguments answers with the
    matching usage message, before the book is looked at and before
    anything is read or written. *)
Theorem change_contact_arity (args : list string) (w : World) :
  List.length args <> 2 ->
  change_contact args w
  = (Return (if Nat.ltb (List.length args) 2
             then "Please provide both name and new phone number."
             else "Please provide the contact name and the new phone number only."),
     w).
Proof.
  intros H. destruct args as [|a [|b [|c more]]]; simpl in H;
    try reflexivity. lia.
Qed.

Lemma change_contact_arity_witness :
  change_contact ["john"; "1"; "2"] world_john
  = (Return "Please provide the contact name and the new phone number only.",
     world_john).
Proof.
  apply (change_contact_arity ["john"; "1"; "2"] world_john). simpl. lia.
Defined.

(** ** The invariants of the book *)

Lemma dict_get_In {V} (k : string) (v : V) (d : dict V) :
  dict_get k d = Some v -> In (k, v) d.
Proof.
  induction d as [|[k' v'] d IH]; simpl; [discriminate|].
  destruct (String.eqb k' k) eqn:E.
  - apply String.eqb_eq in E. intros [= ->]. subst. now left.
  - intros H. right. now apply IH.
Qed.

Lemma dict_set_Forall {V} (P : string * V -> Prop) (k : string) (v : V)
    (d : dict V) :
  Forall P d -> P (k, v) -> Forall P (dict_set k v d).
Proof.
  intros Hd Hkv. induction Hd as [|[k' v'] d Hx Hd IH]; simpl.
  - now repeat constructor.
  - destruct (String.eqb k' k); constructor; trivial.
Qed.

Lemma book_ok_get (book : AddressBook) (key : string) (r : RecordObj) :
  book_ok book -> AddressBook_find key book = Some r ->
  key = name_value (name r) /\ record_ok r.
Proof.
  intros [_ Hall] Hfind. apply dict_get_In in Hfind.
  rewrite Forall_forall in Hall. exact (Hall _ Hfind).
Qed.

Lemma book_ok_set (book : AddressBook) (r : RecordObj) :
  book_ok book -> record_ok r ->
  book_ok (dict_set (name_value (name r)) r book).
Proof.
  intros [Hkeys Hall] Hr. split.
  - now apply dict_ok_set.
  - apply dict_set_Forall; [exact Hall | now split].
Qed.

Lemma record_ok_add_phone (phone : string) (r : RecordObj) :
  record_ok r ->
  record_ok (snd (Record_add_phone phone r))
  /\ name (snd (Record_add_phone phone r)) = name r.
Proof.
  intros [Hn Hp].
  assert (Hname : name (snd (Record_add_phone phone r)) = name r)
    by apply (run_op_name (OpAdd phone)).
  split; [|exact Hname]. split.
  - now rewrite Hname.
  - now apply Record_add_phone_ok.
Qed.

Lemma record_ok_remove_phone (phone : string) (r : RecordObj) :
  record_ok r ->
  record_ok (snd (Record_remove_phone phone r))
  /\ name (snd (Record_remove_phone phone r)) = name r.
Proof.
  intros [Hn Hp].
  assert (Hname : name (snd (Record_remove_phone phone r)) = name r)
    by apply (run_op_name (OpRemove phone)).
  split; [|exact Hname]. split.
  - now rewrite Hname.
  - now apply Record_remove_phone_ok.
Qed.

Lemma record_ok_for_each_add (l : list string) (r : RecordObj) :
  record_ok r -> record_ok (snd (for_each l Record_add_phone r)).
Proof.
  revert r. induction l as [|x l IH]; intros r Hr; simpl; [exact Hr|].
  unfold bind. pose proof (record_ok_add_phone x r Hr) as [Hok _].
  destruct (Record_add_phone x r) as [[[] | e] r']; simpl in *;
    [now apply IH | exact Hok].
Qed.

Lemma Record_init_ok (raw : string) (r : RecordObj) :
  Record_init raw = Return r -> record_ok r.
Proof.
  unfold Record_init, Name_init.
  destruct (str_isalpha (str_lower raw)) eqn:E; simpl; [|discriminate].
  intros [= <-]. split; [|constructor]. split; [exact E|].
  apply str_lower_twice.
Qed.

Section Keeps.

Context {A B : Type}.

Lemma keeps_weaken (c : M World A) (Q : A -> Prop) :
  keeps c Q -> keeps c anything.
Proof. intros H w Hw. split; [apply (H w Hw) | easy]. Qed.

Lemma keeps_ret (a : A) (Q : A -> Prop) : Q a -> keeps (ret a) Q.
Proof. intros Ha w Hw. split; [exact Hw|]. now intros ? [= <-]. Qed.

Lemma keeps_raise (e : exn) (Q : A -> Prop) : keeps (raise e) Q.
Proof. intros w Hw. split; [exact Hw | discriminate]. Qed.

Lemma keeps_lift (o : outcome A) (Q : A -> Prop) :
  (forall a, o = Return a -> Q a) -> keeps (lift o) Q.
Proof. intros Ho w Hw. split; [exact Hw | exact Ho]. Qed.

Lemma keeps_bind (c : M World A) (k : A -> M World B) (Q : A -> Prop)
    (R : B -> Prop) :
  keeps c Q -> (forall a, Q a -> keeps (k a) R) -> keeps (bind c k) R.
Proof.
  intros Hc Hk w Hw. unfold bind. destruct (Hc w Hw) as [Hw1 Hq].
  destruct (c w) as [[a | e] w1]; simpl in *.
  - apply (Hk a (Hq a eq_refl) w1 Hw1).
  - split; [exact Hw1 | discriminate].
Qed.

Lemma keeps_except (body handle : M World A) (Q : A -> Prop) :
  keeps body Q -> keeps handle Q -> keeps (except_KeyError body handle) Q.
Proof.
  intros Hb Hh w Hw. unfold except_KeyError. destruct (Hb w Hw) as [Hw1 Hq].
  destruct (body w) as [[a | []] w1]; simpl in *;
    try (split; [exact Hw1 | first [exact Hq | discriminate]]).
  apply (Hh w1 Hw1).
Qed.

Lemma keeps_input_error (inj : string -> A) (func : M World A)
    (Q : A -> Prop) :
  keeps func Q -> keeps (input_error inj func) anything.
Proof.
  intros Hf w Hw. rewrite input_error_state.
  split; [apply (Hf w Hw) | easy].
Qed.

Lemma keeps_on_record (key : string) (c : M RecordObj A) :
  (forall r, record_ok r ->
             record_ok (snd (c r)) /\ name (snd (c r)) = name r) ->
  keeps (on_record key c) anything.
Proof.
  intros Hc w Hw. split; [|easy]. unfold on_record.
  destruct (AddressBook_find key (address_book w)) as [r|] eqn:Hfind;
    [|exact Hw].
  destruct (book_ok_get _ _ _ Hw Hfind) as [Hkey Hr].
  destruct (Hc r Hr) as [Hr' Hname].
  destruct (c r) as [o r']. simpl in *.
  rewrite Hkey, <- Hname. now apply book_ok_set.
Qed.

End Keeps.

Lemma keeps_get : keeps (@get World) anything.
Proof. intros w Hw. now split. Qed.

Lemma keeps_print (s : string) : keeps (print s) anything.
Proof. intros w Hw. now split. Qed.

Lemma keeps_input (prompt : string) : keeps (input prompt) anything.
Proof.
  intros [book sin sout] Hw. unfold input. simpl.
  destruct sin; simpl; now split.
Qed.

Lemma keeps_for_each {A} (l : list A) (body : A -> M World unit) :
  (forall x, keeps (body x) anything) -> keeps (for_each l body) anything.
Proof.
  intros Hbody. induction l as [|x l IH]; simpl.
  - now apply keeps_ret.
  - apply keeps_bind with anything; [apply Hbody | intros _ _; exact IH].
Qed.

Lemma keeps_add_record (r : RecordObj) :
  record_ok r -> keeps (on_book (AddressBook_add_record r)) anything.
Proof.
  intros Hr w Hw. split; [|easy].
  unfold on_book, AddressBook_add_record, modify. simpl.
  now apply book_ok_set.
Qed.

Lemma keeps_on_local (c : M RecordObj unit) (r : RecordObj) :
  record_ok (snd (c r)) -> keeps (on_local c r) record_ok.
Proof.
  intros Hr w Hw. unfold on_local.
  destruct (c r) as [[[] | e] r']; simpl in *; split; trivial;
    [now intros ? [= <-] | discriminate].
Qed.

Lemma keeps_add_contact (args : list string) :
  keeps (add_contact args) anything.
Proof.
  unfold add_contact, handler.
  apply keeps_input_error with anything.
  destruct args as [|nm [|phone more]]; try apply keeps_raise.
  apply keeps_bind with anything; [apply keeps_get|]. intros w _.
  destruct (AddressBook_find nm (address_book w)).
  - apply keeps_bind with anything; [|intros; now apply keeps_ret].
    apply keeps_for_each. intros x. apply keeps_on_record.
    apply record_ok_add_phone.
  - apply keeps_bind with record_ok;
      [apply keeps_lift, Record_init_ok|].
    intros r Hr. apply keeps_bind with record_ok.
    + apply keeps_on_local. now apply record_ok_for_each_add.
    + intros r' Hr'. apply keeps_bind with anything;
        [now apply keeps_add_record | intros; now apply keeps_ret].
Qed.

Lemma keeps_change_contact (args : list string) :
  keeps (change_contact args) anything.
Proof.
  unfold change_contact, handler.
  apply keeps_input_error with anything.
  destruct args as [|nm [|new_phone [|extra more]]]; try apply keeps_raise.
  apply keeps_bind with anything.
  { apply keeps_on_record. intros r Hr. now split. }
  intros available _.
  apply keeps_bind with anything; [apply keeps_print|]. intros _ _.
  apply keeps_bind with anything.
  { apply keeps_for_each. intros [i phone]. apply keeps_print. }
  intros _ _. apply keeps_except; [|now apply keeps_ret].
  apply keeps_bind with anything; [apply keeps_input|]. intros chosen _.
  apply keeps_bind with anything; [now apply keeps_lift|]. intros phone _.
  apply keeps_bind with anything.
  { apply keeps_on_record, record_ok_remove_phone. }
  intros _ _. apply keeps_bind with anything.
  { apply keeps_on_record, record_ok_add_phone. }
  intros _ _. now apply keeps_ret.
Qed.

Lemma keeps_unchanged {A} (c : M World A) :
  (forall w, snd (c w) = w) -> keeps c anything.
Proof. intros H w Hw. rewrite H. now split. Qed.

Lemma keeps_process_input (command : string) (args : list string) :
  keeps (process_input command args) anything.
Proof.
  unfold process_input, handler. apply keeps_input_error with anything.
  destruct (command =? "hello"); [now apply keeps_ret|].
  destruct (command =? "add"); [apply keeps_add_contact|].
  destruct (command =? "change"); [apply keeps_change_contact|].
  destruct (command =? "phone");
    [apply keeps_unchanged, show_phone_state|].
  destruct (command =? "all");
    [apply keeps_unchanged, show_all_contacts_state|].
  now apply keeps_ret.
Qed.

Lemma keeps_main_loop (fuel : nat) : keeps (main_loop fuel) anything.
Proof.
  induction fuel as [|fuel IH]; simpl; [now apply keeps_ret|].
  apply keeps_bind with anything; [apply keeps_input|]. intros line _.
  apply keeps_bind with anything; [now apply keeps_lift|].
  intros [command args] _.
  destruct ((command =? "close") || (command =? "exit")).
  - apply keeps_bind with anything; [apply keeps_print|].
    intros; now apply keeps_ret.
  - apply keeps_bind with anything; [apply keeps_process_input|].
    intros reply _.
    apply keeps_bind with anything; [apply keeps_print|].
    intros _ _. exact IH.
Qed.

(** Whatever command is processed, with whatever arguments and input, a
    valid book stays valid: its keys stay pairwise distinct, every record
    stays under its own name, every name stays alphabetic and lower-case
    and every phone a string of ten digits.  ([edit_phone], which could
    break this, is called by no command.) *)
Theorem process_input_keeps_book_ok (command : string) (args : list string)
    (w : World) :
  book_ok (address_book w) ->
  book_ok (address_book (snd (process_input command args w))).
Proof. intros Hw. apply (keeps_process_input command args w Hw). Qed.

Lemma process_input_keeps_book_ok_witness :
  book_ok (address_book
             (snd (process_input "change" ["john"; "5555555555"] world_john))).
Proof.
  apply (process_input_keeps_book_ok "change" ["john"; "5555555555"]
           world_john).
  split.
  - repeat constructor. intros [].
  - repeat constructor.
Defined.

(** The book [main] ends with is valid, whatever lines were read. *)
Theorem main_keeps_book_ok (lines : list string) :
  book_ok (address_book (snd (main lines))).
Proof.
  unfold main, main_with. rewrite input_error_state.
  assert (H : keeps (print "Welcome to the assistant bot!" ;;
                     main_loop (S (List.length lines)) ;;
                     ret (@None string)) anything).
  { apply keeps_bind with anything; [apply keeps_print|]. intros _ _.
    apply keeps_bind with anything; [apply keeps_main_loop|].
    intros; now apply keeps_ret. }
  apply (H (start lines)). split; constructor.
Qed.

(** In a valid book no record is stored under a name that is not its own
    lower-casing, so [phone] with such a name, for instance the name as it
    was typed in [add Bob ...], answers that the contact is not found. *)
Theorem show_phone_capitals_not_found (w : World) (nm : string)
    (more : list string) :
  book_ok (address_book w) ->
  str_lower nm <> nm ->
  AddressBook_find nm (address_book w) = None
  /\ show_phone (nm :: more) w
     = (Return ("Contact '" ++ nm ++ "' not found."), w).
Proof.
  intros Hw Hnm.
  assert (Hfind : AddressBook_find nm (address_book w) = None).
  { destruct (AddressBook_find nm (address_book w)) as [r|] eqn:E;
      [|reflexivity].
    destruct (book_ok_get _ _ _ Hw E) as [-> [[_ Hlow] _]]. contradiction. }
  split; [exact Hfind|].
  unfold show_phone, handler, input_error, bind, get. now rewrite Hfind.
Qed.

Lemma show_phone_capitals_not_found_witness :
  AddressBook_find "John" (address_book world_john) = None
  /\ show_phone ["John"] world_john
     = (Return ("Contact '" ++ "John" ++ "' not found."), world_john).
Proof.
  apply (show_phone_capitals_not_found world_john "John" []).
  - split.
    + repeat constructor. intros [].
    + repeat constructor.
  - discriminate.
Defined.

(** ** How the main loop ends *)

(** One iteration of the loop, spelled out. *)
Lemma main_loop_step (fuel : nat) (w : World) :
  main_loop (S fuel) w
  = match stdin w with
    | [] => (Raise EOFError, write (Prompt "Enter a command: ") w)
    | line :: rest =>
        let w1 := {| address_book := address_book w; stdin := rest;
                     stdout := (stdout w ++ [Prompt "Enter a command: "])%list
                  |} in
        match parse_input line with
        | Raise e => (Raise e, w1)
        | Return (command, args) =>
            if (command =? "close") || (command =? "exit")
            then (Return Break, write (Printed "Good bye!") w1)
            else
              match process_input command args w1 with
              | (Return reply, w2) =>
                  main_loop fuel (write (Printed reply) w2)
              | (Raise e, w2) => (Raise e, w2)
              end
        end
    end.
Proof.
  destruct w as [book sin sout]. simpl. unfold bind at 1. unfold input.
  simpl. destruct sin as [|line rest]; [reflexivity|].
  unfold bind at 1. unfold lift.
  destruct (parse_input line) as [[command args] | e]; [|reflexivity].
  destruct ((command =? "close") || (command =? "exit")); [reflexivity|].
  unfold bind at 1.
  destruct (process_input command args _) as [[reply | e] w2];
    reflexivity.
Qed.

Lemma main_loop_fuel_irrelevant (fuel fuel' : nat) (w : World) :
  List.length (stdin w) < fuel -> fuel <= fuel' ->
  main_loop fuel' w = main_loop fuel w.
Proof.
  revert fuel' w. induction fuel as [|fuel IH]; intros fuel' w Hlen Hle;
    [lia|].
  destruct fuel' as [|fuel']; [lia|].
  rewrite !main_loop_step.
  destruct (stdin w) as [|line rest] eqn:Hin; [reflexivity|].
  cbv zeta.
  destruct (parse_input line) as [[command args] | e]; [|reflexivity].
  destruct ((command =? "close") || (command =? "exit")); [reflexivity|].
  set (w1 := {| address_book := address_book w; stdin := rest;
                stdout := _ |}).
  pose proof (reads_on_process_input command args w1) as Hreads.
  destruct (process_input command args w1) as [[reply | e] w2];
    [|reflexivity].
  apply IH; simpl in *; lia.
Qed.

(** The loop stops by itself on every finite input, and what [main]
    returns and leaves does not depend on the bound on the iterations:
    every bound above the number of lines gives the same run. *)
Theorem main_fuel_irrelevant (lines : list string) (fuel : nat) :
  List.length lines < fuel ->
  main_with fuel (start lines) = main lines
  /\ fst (main_loop fuel (start lines)) <> Return OutOfFuel.
Proof.
  intros H. split.
  - unfold main, main_with, input_error, bind, print, modify.
    rewrite (main_loop_fuel_irrelevant (S (List.length lines)) fuel);
      [reflexivity | simpl; lia | lia].
  - apply main_loop_enough_fuel. simpl. exact H.
Qed.

Lemma main_fuel_irrelevant_witness :
  main_with 10 (start ["add john 1234567890"; "change john 1"; "0"; "all"])
  = main ["add john 1234567890"; "change john 1"; "0"; "all"]
  /\ fst (main_loop 10
            (start ["add john 1234567890"; "change john 1"; "0"; "all"]))
     <> Return OutOfFuel.
Proof.
  apply (main_fuel_irrelevant
           ["add john 1234567890"; "change john 1"; "0"; "all"] 10).
  simpl. lia.
Defined.



(** A line whose first word, lower-cased, is [close] or [exit] ends the
    loop whatever follows the word: the farewell is printed, and the lines
    after it are not read. *)
Theorem main_loop_close (fuel : nat) (w : World) (line : string)
    (rest : list string) (command : string) (args : list string) :
  stdin w = line :: rest ->
  parse_input line = Return (command, args) ->
  command = "close" \/ command = "exit" ->
  main_loop (S fuel) w
  = (Return Break,
     {| address_book := address_book w;
        stdin := rest;
        stdout := (stdout w ++ [Prompt "Enter a command: ";
                                Printed "Good bye!"])%list |}).
Proof.
  intros Hin Hparse Hcmd. rewrite main_loop_step, Hin. cbv zeta.
  rewrite Hparse.
  assert (E : (command =? "close") || (command =? "exit") = true)
    by (destruct Hcmd as [-> | ->]; reflexivity).
  rewrite E. unfold write. simpl. now rewrite <- app_assoc.
Qed.

Lemma main_loop_close_witness :
  main_loop 1 {| address_book := []; stdin := ["  EXIT now"; "hello"];
                 stdout := [] |}
  = (Return Break,
     {| address_book := [];
        stdin := ["hello"];
        stdout := ([] ++ [Prompt "Enter a command: ";
                          Printed "Good bye!"])%list |}).
Proof.
  apply (main_loop_close 0
           {| address_book := []; stdin := ["  EXIT now"; "hello"];
              stdout := [] |}
           "  EXIT now" ["hello"] "exit" ["now"]).
  - reflexivity.
  - reflexivity.
  - now right.
Defined.

(** ** [add] and then [phone] *)

Lemma map_phone_value_mkPhone (l : list string) :
  map phone_value (map mkPhone l) = l.
Proof. induction l as [|x l IH]; simpl; [reflexivity | now rewrite IH]. Qed.

(** After [add <name> <phones>] with valid phones, on a contact that is
    stored under the name or on a new valid lower-case name, [phone <name>]
    lists the phones the contact had before followed by the added ones, in
    the order given, and changes nothing. *)
Theorem add_then_show_phone (w : World) (nm phone : string)
    (more : list string) :
  AddressBook_find nm (address_book w) <> None \/ name_ok nm ->
  Forall (fun g => ten_digits g = true) (phone :: more) ->
  let before :=
    match AddressBook_find nm (address_book w) with
    | Some r => Record_find_phone_all r
    | None => []
    end in
  let w1 := snd (add_contact (nm :: phone :: more) w) in
  show_phone [nm] w1
  = (Return
       (if Nat.eqb (List.length (before ++ phone :: more)) 1
        then "The phone number for contact '" ++ nm ++ "' is: "
             ++ str_join ", " (before ++ phone :: more) ++ "."
        else "The phone numbers for contact '" ++ nm ++ "' are: "
             ++ str_join ", " (before ++ phone :: more) ++ "."),
     w1).
Proof.
  intros Hnm Hok before w1. subst before w1.
  destruct (AddressBook_find nm (address_book w)) as [r|] eqn:Hfind.
  - rewrite (add_contact_existing _ _ _ _ _ Hfind Hok). cbn [snd]. unfold show_phone, handler, input_error, bind, get.
    cbn [address_book set_book]. unfold AddressBook_find.
    rewrite dict_get_set_same. unfold Record_find_phone_all.
    cbn [phones set_phones].
    rewrite map_app, map_phone_value_mkPhone.
    now destruct (Nat.eqb _ 1).
  - destruct Hnm as [Hnm | [Halpha Hlow]]; [congruence|].
    rewrite (add_contact_new _ _ _ _ Hfind Hok), Hlow, Halpha. cbn [snd].
    unfold show_phone, handler, input_error, bind, get.
    cbn [address_book set_book]. unfold AddressBook_find.
    rewrite dict_get_set_same. unfold Record_find_phone_all.
    cbn [phones]. rewrite map_phone_value_mkPhone.
    cbn [app]. now destruct (Nat.eqb _ 1).
Qed.

Lemma add_then_show_phone_witness :
  show_phone ["john"]
    (snd (add_contact ["john"; "5555555555"] world_john))
  = (Return
       ("The phone numbers for contact '" ++ "john" ++ "' are: "
        ++ str_join ", " ["1234567890"; "3333333333"; "5555555555"] ++ "."),
     snd (add_contact ["john"; "5555555555"] world_john)).
Proof.
  apply (add_then_show_phone world_john "john" "5555555555" []).
  - left. discriminate.
  - repeat constructor.
Defined.

(** ** What no command undoes *)

Section Steps.

Variable R : World -> World -> Prop.
Hypothesis R_refl : forall w, R w w.
Hypothesis R_trans : forall w1 w2 w3, R w1 w2 -> R w2 w3 -> R w1 w3.

Lemma steps_unchanged {A} (c : M World A) :
  (forall w, snd (c w) = w) -> steps R c.
Proof. intros H w. rewrite H. apply R_refl. Qed.

Lemma steps_bind {A B} (c : M World A) (k : A -> M World B) :
  steps R c -> (forall a, steps R (k a)) -> steps R (bind c k).
Proof.
  intros Hc Hk w. unfold bind. specialize (Hc w).
  destruct (c w) as [[a | e] w1]; simpl in *; [|exact Hc].
  apply R_trans with w1; [exact Hc | apply Hk].
Qed.

Lemma steps_for_each {A} (l : list A) (body : A -> M World unit) :
  (forall x, steps R (body x)) -> steps R (for_each l body).
Proof.
  intros Hbody. induction l as [|x l IH]; simpl.
  - now apply steps_unchanged.
  - apply steps_bind; [apply Hbody | intros _; exact IH].
Qed.

Lemma steps_except {A} (body handle : M World A) :
  steps R body -> steps R handle -> steps R (except_KeyError body handle).
Proof.
  intros Hb Hh w. unfold except_KeyError. specialize (Hb w).
  destruct (body w) as [[a | []] w1]; simpl in *; try exact Hb.
  apply R_trans with w1; [exact Hb | apply Hh].
Qed.

Lemma steps_input_error {A} (inj : string -> A) (func : M World A) :
  steps R func -> steps R (input_error inj func).
Proof. intros Hf w. rewrite input_error_state. apply Hf. Qed.

Hypothesis R_print : forall s, steps R (print s).
Hypothesis R_input : forall prompt, steps R (input prompt).
Hypothesis R_on_record :
  forall A key (c : M RecordObj A), steps R (on_record key c).
Hypothesis R_add_record :
  forall r, steps R (on_book (AddressBook_add_record r)).

Lemma steps_add_contact (args : list string) : steps R (add_contact args).
Proof.
  unfold add_contact, handler. apply steps_input_error.
  destruct args as [|nm [|phone more]]; try now apply steps_unchanged.
  apply steps_bind; [now apply steps_unchanged|]. intros w.
  destruct (AddressBook_find nm (address_book w)).
  - apply steps_bind; [|intros; now apply steps_unchanged].
    apply steps_for_each. intros x. apply R_on_record.
  - apply steps_bind; [now apply steps_unchanged|]. intros r.
    apply steps_bind.
    + apply steps_unchanged. intros w'. unfold on_local.
      now destruct (for_each _ _ r) as [[[] | e] r'].
    + intros r'. apply steps_bind;
        [apply R_add_record | intros; now apply steps_unchanged].
Qed.

Lemma steps_change_contact (args : list string) :
  steps R (change_contact args).
Proof.
  unfold change_contact, handler. apply steps_input_error.
  destruct args as [|nm [|new_phone [|extra more]]];
    try now apply steps_unchanged.
  apply steps_bind; [apply R_on_record|]. intros available.
  apply steps_bind; [apply R_print|]. intros _.
  apply steps_bind.
  { apply steps_for_each. intros [i phone]. apply R_print. }
  intros _. apply steps_except; [|now apply steps_unchanged].
  apply steps_bind; [apply R_input|]. intros chosen.
  apply steps_bind; [now apply steps_unchanged|]. intros phone.
  apply steps_bind; [apply R_on_record|]. intros _.
  apply steps_bind; [apply R_on_record|]. intros _.
  now apply steps_unchanged.
Qed.

Lemma steps_process_input (command : string) (args : list string) :
  steps R (process_input command args).
Proof.
  unfold process_input, handler. apply steps_input_error.
  destruct (command =? "hello"); [now apply steps_unchanged|].
  destruct (command =? "add"); [apply steps_add_contact|].
  destruct (command =? "change"); [apply steps_change_contact|].
  destruct (command =? "phone");
    [apply steps_unchanged, show_phone_state|].
  destruct (command =? "all");
    [apply steps_unchanged, show_all_contacts_state|].
  now apply steps_unchanged.
Qed.

Lemma steps_main_loop (fuel : nat) : steps R (main_loop fuel).
Proof.
  induction fuel as [|fuel IH]; simpl; [now apply steps_unchanged|].
  apply steps_bind; [apply R_input|]. intros line.
  apply steps_bind; [now apply steps_unchanged|]. intros [command args].
  destruct ((command =? "close") || (command =? "exit")).
  - apply steps_bind; [apply R_print | intros; now apply steps_unchanged].
  - apply steps_bind; [apply steps_process_input|]. intros reply.
    apply steps_bind; [apply R_print | intros _; exact IH].
Qed.

End Steps.

Lemma dict_set_keys_incl {V} (k : string) (v : V) (d : dict V) :
  incl (map fst d) (map fst (dict_set k v d)).
Proof.
  destruct (dict_get k d) as [v0|] eqn:E.
  - rewrite dict_set_keys; [apply incl_refl | congruence].
  - rewrite (dict_set_new_key _ _ _ E). now apply incl_appl, incl_refl.
Qed.

(** No command takes a contact out of the book: every name that is a key
    before a command is a key after it, and so from the start of the loop
    to its end.  ([AddressBook.delete] is called by no command.) *)
Theorem main_loop_keeps_contacts (fuel : nat) (command : string)
    (args : list string) (w : World) :
  contacts_kept w (snd (process_input command args w))
  /\ contacts_kept w (snd (main_loop fuel w)).
Proof.
  assert (Hrefl : forall w, contacts_kept w w)
    by (intros ?; apply incl_refl).
  assert (Htrans : forall w1 w2 w3, contacts_kept w1 w2 ->
                     contacts_kept w2 w3 -> contacts_kept w1 w3)
    by (intros ? ? ?; apply incl_tran).
  assert (Hprint : forall s, steps contacts_kept (print s))
    by (intros s w0; apply incl_refl).
  assert (Hinput : forall prompt, steps contacts_kept (input prompt)).
  { intros prompt [book sin sout]. unfold input, contacts_kept. simpl.
    destruct sin; apply incl_refl. }
  assert (Hrec : forall A key (c : M RecordObj A),
             steps contacts_kept (on_record key c)).
  { intros A key c w0. unfold on_record, contacts_kept.
    destruct (AddressBook_find key (address_book w0)); [|apply incl_refl].
    destruct (c r) as [o r']. simpl. apply dict_set_keys_incl. }
  assert (Hadd : forall r,
             steps contacts_kept (on_book (AddressBook_add_record r))).
  { intros r w0. unfold on_book, AddressBook_add_record, modify,
      contacts_kept. simpl. apply dict_set_keys_incl. }
  split.
  - now apply steps_process_input.
  - now apply steps_main_loop.
Qed.

